(** * Binance futures pairs dashboard: tick store, bar aggregation, pairs analytics

    A shallow embedding of [storage/db.py] and [analytics/pairs.py], of the
    trade ingestion of [ingestion/binance_ws.py] and of the alert of [app.py].

    Conventions of the model.
    - A Python/NumPy [float] is a value of [float] below: NaN, an infinity, or
      a finite number.  Finite arithmetic is exact (rationals, [Q]); rounding
      is not modelled.  The special values follow IEEE 754 as NumPy applies
      them to arrays: NaN is absorbing, [inf - inf], [0 * inf] and [0 / 0] are
      NaN, [x / 0] is an infinity for [x <> 0].  Signed zeros are not
      distinguished.  SQLite stores a NaN as NULL and pandas reads a NULL of a
      float column as NaN, so NaN stands for both.  Where rounding can change
      an outcome (a z-score over a rolling deviation of zero is NaN in exact
      arithmetic and can be an infinity on binary64), the statements assert
      what holds either way.
    - A naive UTC [datetime] is the number of microseconds since the epoch
      ([Z]); [datetime.utcnow()] is an explicit argument [now].
    - The SQLite tables are lists of rows in rowid (insertion) order.  The
      query of [get_ticks] has no ORDER BY; SQLite serves it through the
      index on [symbol]: symbol by symbol, and in rowid order within a
      symbol.
    - Lookbacks are taken within the range of [datetime]; outside it
      [datetime.utcnow() - timedelta(minutes=minutes_back)] raises
      OverflowError, an error path the model leaves out.
    - A call either returns a value or raises: [result].
    - pandas and statsmodels are modelled by what they compute: [resample]
      with [first], [max], [min], [last], [sum]; index-aligned series
      arithmetic; [rolling] means and standard deviations; the ordinary
      least-squares fit by its closed form.  The square root, which exact
      rationals lack, is a parameter. *)

From Stdlib Require Import ZArith QArith Lia Permutation Sorted.
From Stdlib Require Import Qround.
From stdpp Require Import base tactics option list sorting gmap strings.

Local Open Scope Z_scope.

(** ** Exceptions and results *)

Inductive exn :=
  | ValueError        (* pandas: invalid frequency, negative rolling window *)
  | IndexError        (* numpy: index out of bounds *)
  | MissingDataError. (* statsmodels: exog contains inf or nans *)

Inductive result (A : Type) :=
  | Ok (a : A)
  | Raise (e : exn).
Arguments Ok {A} a.
Arguments Raise {A} e.

Definition bind {A B} (r : result A) (k : A -> result B) : result B :=
  match r with
  | Ok a => k a
  | Raise e => Raise e
  end.

Definition raises {A} (r : result A) : Prop := exists e, r = Raise e.

(** ** Floating-point values *)

Inductive float :=
  | NaN
  | Inf (neg : bool)
  | Fin (q : Q).

Definition isnan (x : float) : bool :=
  match x with NaN => true | _ => false end.

Definition isinf (x : float) : bool :=
  match x with Inf _ => true | _ => false end.

Definition isfinite (x : float) : bool :=
  match x with Fin _ => true | _ => false end.

Definition Qzerob (q : Q) : bool := (Qnum q =? 0)%Z.
Definition Qnegb (q : Q) : bool := (Qnum q <? 0)%Z.

(** Finite arithmetic, every result in lowest terms: a number has one
    representation, as a float has. *)
Definition Qadd (a b : Q) : Q := Qred (a + b).
Definition Qsub (a b : Q) : Q := Qred (a - b).
Definition Qmul (a b : Q) : Q := Qred (a * b).
Definition Qquo (a b : Q) : Q := Qred (a / b).

Definition fneg (x : float) : float :=
  match x with
  | NaN => NaN
  | Inf s => Inf (negb s)
  | Fin q => Fin (- q)%Q
  end.

Definition fadd (x y : float) : float :=
  match x, y with
  | NaN, _ | _, NaN => NaN
  | Inf s, Inf s' => if Bool.eqb s s' then Inf s else NaN
  | Inf s, Fin _ | Fin _, Inf s => Inf s
  | Fin a, Fin b => Fin (Qadd a b)
  end.

Definition fsub (x y : float) : float := fadd x (fneg y).

Definition fmul (x y : float) : float :=
  match x, y with
  | NaN, _ | _, NaN => NaN
  | Inf s, Inf s' => Inf (xorb s s')
  | Inf s, Fin q | Fin q, Inf s =>
      if Qzerob q then NaN else Inf (xorb s (Qnegb q))
  | Fin a, Fin b => Fin (Qmul a b)
  end.

Definition fdiv (x y : float) : float :=
  match x, y with
  | NaN, _ | _, NaN => NaN
  | Inf _, Inf _ => NaN
  | Inf s, Fin q => Inf (xorb s (Qnegb q))
  | Fin _, Inf _ => Fin 0%Q
  | Fin a, Fin b =>
      if Qzerob b then (if Qzerob a then NaN else Inf (Qnegb a))
      else Fin (Qquo a b)
  end.

(** [x <= y] as NumPy compares: false as soon as one side is NaN. *)
Definition fleb (x y : float) : bool :=
  match x, y with
  | NaN, _ | _, NaN => false
  | Inf true, _ => true
  | _, Inf false => true
  | Inf false, _ => false
  | _, Inf true => false
  | Fin a, Fin b => Qle_bool a b
  end.

(** Skip-NaN reductions, as pandas' [first], [last], [max], [min] and [sum]
    apply them to a group of values. *)
Definition fmax (x y : float) : float :=
  if isnan x then y else if isnan y then x else if fleb x y then y else x.

Definition fmin (x y : float) : float :=
  if isnan x then y else if isnan y then x else if fleb x y then x else y.

Definition notna (x : float) : bool := negb (isnan x).

Definition agg_first (l : list float) : float :=
  match List.filter notna l with
  | [] => NaN
  | x :: _ => x
  end.

Definition agg_last (l : list float) : float := agg_first (rev l).

Definition agg_max (l : list float) : float := fold_right fmax NaN l.
Definition agg_min (l : list float) : float := fold_right fmin NaN l.

Definition fsum (l : list float) : float := fold_right fadd (Fin 0%Q) l.
Definition agg_sum (l : list float) : float := fsum (List.filter notna l).

(** ** The tables of [storage/db.py] *)

Module Tick.
Record t := mk {
  id : Z;
  symbol : string;
  ts : Z;
  price : float;
  qty : float
}.
End Tick.

Module Bar.
Record t := mk {
  id : Z;
  symbol : string;
  timeframe : string;
  ts : Z;
  open : float;
  high : float;
  low : float;
  close : float;
  volume : float
}.
End Bar.

Record DB := mkDB {
  ticks : list Tick.t;
  bars : list Bar.t
}.

(** AUTOINCREMENT on an append-only table. *)
Definition next_id {A} (rows : list A) : Z := Z.of_nat (length rows) + 1.

(** [insert_tick]: build the row, add it, commit.  Nothing inspects the
    arguments. *)
Definition insert_tick (db : DB) (symbol : string) (ts : Z)
    (price qty : float) : result DB :=
  let t := Tick.mk (next_id (ticks db)) symbol ts price qty in
  Ok (mkDB (ticks db ++ [t]) (bars db)).

(** ** Data frames *)

Module TickRow.
Record t := mk {
  symbol : string;
  ts : Z;
  price : float;
  qty : float
}.
End TickRow.

Module BarRow.
Record t := mk {
  symbol : string;
  ts : Z;
  open : float;
  high : float;
  low : float;
  close : float;
  volume : float
}.
End BarRow.

Definition tick_row (r : Tick.t) : TickRow.t :=
  TickRow.mk (Tick.symbol r) (Tick.ts r) (Tick.price r) (Tick.qty r).

Definition minute : Z := 60000000.

Definition cutoff (now minutes_back : Z) : Z := now - minutes_back * minute.

(** The WHERE clause of [get_ticks]. *)
Definition selected (symbols : list string) (cut : Z) (r : Tick.t) : bool :=
  bool_decide (Tick.symbol r ∈ symbols) && (cut <=? Tick.ts r).

(** The query has no ORDER BY.  The column [symbol] is indexed
    ([index=True]) and SQLite serves the query through that index: the rows
    come symbol by symbol, in the order of the index (text compared byte by
    byte), and within a symbol in rowid order.  That is a stable sort of the
    selected rows by symbol. *)
Fixpoint insert_by_symbol (r : Tick.t) (l : list Tick.t) : list Tick.t :=
  match l with
  | [] => [r]
  | h :: t =>
      if String.leb (Tick.symbol r) (Tick.symbol h) then r :: l
      else h :: insert_by_symbol r t
  end.

Definition index_order (l : list Tick.t) : list Tick.t :=
  fold_right insert_by_symbol [] l.

Definition get_ticks (db : DB) (symbols : list string) (minutes_back now : Z)
    : list TickRow.t :=
  let rows :=
    index_order
      (List.filter (selected symbols (cutoff now minutes_back)) (ticks db)) in
  map tick_row rows.


Definition of_symbol (s : string) (t : Tick.t) : bool :=
  bool_decide (Tick.symbol t = s).

(** ** [resample_ticks_to_bars] *)

Definition freq_map : gmap string string :=
  {[ "1s" := "1S"; "1m" := "1T"; "5m" := "5T" ]}.

(** pandas' [to_offset] on the aliases above, as a bucket length in
    microseconds; any other alias is an invalid frequency. *)
Definition to_offset (freq : string) : option Z :=
  if decide (freq = "1S") then Some 1000000
  else if decide (freq = "1T") then Some minute
  else if decide (freq = "5T") then Some (5 * minute)
  else None.

(** Start of the bucket of [t]: buckets of these lengths are aligned to
    midnight, hence to multiples of the length since the epoch; the left edge
    is closed and labels the bucket. *)
Definition floor_ts (w t : Z) : Z := t - t mod w.

(** [resample] sorts the rows by index first, with a stable sort. *)
Fixpoint insert_row (r : TickRow.t) (l : list TickRow.t) : list TickRow.t :=
  match l with
  | [] => [r]
  | h :: t =>
      if TickRow.ts r <=? TickRow.ts h then r :: l else h :: insert_row r t
  end.

Definition sort_by_ts (l : list TickRow.t) : list TickRow.t :=
  fold_right insert_row [] l.

(** Every bucket from the first row's to the last row's, empty ones included. *)
Definition bin_range (lo hi w : Z) : list Z :=
  map (fun i => lo + Z.of_nat i * w) (seq 0 (Z.to_nat ((hi - lo) / w) + 1)).

Definition in_bin (w b : Z) (r : TickRow.t) : bool :=
  floor_ts w (TickRow.ts r) =? b.

Definition agg_bin (w : Z) (sym : string) (sorted : list TickRow.t) (b : Z)
    : BarRow.t :=
  let grp := List.filter (in_bin w b) sorted in
  let prices := map TickRow.price grp in
  BarRow.mk sym b (agg_first prices) (agg_max prices) (agg_min prices)
            (agg_last prices) (agg_sum (map TickRow.qty grp)).

Definition ohlc_notna (m : BarRow.t) : bool :=
  notna (BarRow.open m) && notna (BarRow.high m)
  && notna (BarRow.low m) && notna (BarRow.close m).

(** The body of the loop for one symbol with a non-empty [sub]: resample
    price and quantity, join, tag with the symbol, drop the rows without
    OHLC. *)
Definition resample_symbol (w : Z) (sym : string) (sub : list TickRow.t)
    : list BarRow.t :=
  let sorted := sort_by_ts sub in
  match sorted with
  | [] => []
  | r0 :: _ =>
      let lo := floor_ts w (TickRow.ts r0) in
      let hi := floor_ts w (TickRow.ts (List.last sorted r0)) in
      let merged := map (agg_bin w sym sorted) (bin_range lo hi w) in
      List.filter ohlc_notna merged
  end.

Definition has_symbol (sym : string) (r : TickRow.t) : bool :=
  bool_decide (TickRow.symbol r = sym).

(** One turn of the loop over [symbols]: a symbol without rows is skipped. *)
Definition symbol_frame (w : Z) (df : list TickRow.t) (sym : string)
    : option (list BarRow.t) :=
  match List.filter (has_symbol sym) df with
  | [] => None
  | sub => Some (resample_symbol w sym sub)
  end.

Definition bar_of_row (id : Z) (timeframe : string) (row : BarRow.t) : Bar.t :=
  Bar.mk id (BarRow.symbol row) timeframe (BarRow.ts row)
         (BarRow.open row) (BarRow.high row) (BarRow.low row)
         (BarRow.close row) (BarRow.volume row).

(** The persistence loop: one [session.add] per returned row. *)
Definition persist_bars (timeframe : string) (tbl : list Bar.t)
    (rows : list BarRow.t) : list Bar.t :=
  fold_left (fun tbl row => tbl ++ [bar_of_row (next_id tbl) timeframe row])
            rows tbl.

Definition resample_ticks_to_bars (db : DB) (symbols : list string)
    (timeframe : string) (minutes_back now : Z)
    : result (list BarRow.t * DB) :=
  let freq := default "1T" (freq_map !! timeframe) in
  let df := get_ticks db symbols minutes_back now in
  match df with
  | [] => Ok ([], db)
  | _ :: _ =>
      match to_offset freq with
      | None => Raise ValueError
      | Some w =>
          let bars_list := omap (symbol_frame w df) symbols in
          match bars_list with
          | [] => Ok ([], db)
          | _ :: _ =>
              let bars_df := concat bars_list in
              Ok (bars_df,
                  mkDB (ticks db) (persist_bars timeframe (bars db) bars_df))
          end
      end
  end.

(** *** Running example: symbol A at 10:00:00 and 10:00:59, then 10:05:30 *)

Definition t_10_00_00 : Z := 1700000000 * 1000000 - 1700000000 * 1000000 mod 86400000000 + 36000 * 1000000.

Definition q (n : Z) : float := Fin (inject_Z n).

Definition db_example : DB :=
  mkDB [ Tick.mk 1 "A" t_10_00_00 (q 100) (q 1);
         Tick.mk 2 "A" (t_10_00_00 + 59000000) (q 101) (q 2);
         Tick.mk 3 "A" (t_10_00_00 + 330000000) (q 99) (q 4) ] [].

Definition now_example : Z := t_10_00_00 + 6 * minute.

(** ** Series of [analytics/pairs.py] *)

(** A [pd.Series] of floats indexed by timestamps, in positional order.  The
    index labels are taken to be unique, as in the columns the dashboard
    derives with [pivot_table]. *)
Definition Series := list (Z * float).

Definition index (s : Series) : list Z := map fst s.
Definition values (s : Series) : list float := map snd s.

(** Label lookup, [s.loc[t]]. *)
Fixpoint loc (s : Series) (t : Z) : option float :=
  match s with
  | [] => None
  | (t', v) :: s' => if t' =? t then Some v else loc s' t
  end.

#[export] Instance result_ret : MRet result := fun _ a => Ok a.
#[export] Instance result_bind : MBind result := fun _ _ k r => bind r k.

(** [pd.concat([px_x, px_y], axis=1, join="inner").dropna()]: the rows of the
    labels both series have, in the order of the first, without those where a
    value is NaN (an infinity is not missing). *)
Definition inner_join (px_x px_y : Series) : list (Z * (float * float)) :=
  omap (fun p => match loc px_y (fst p) with
                 | Some y => Some (fst p, (snd p, y))
                 | None => None
                 end) px_x.

Definition row_notna (r : Z * (float * float)) : bool :=
  notna (fst (snd r)) && notna (snd (snd r)).

Definition aligned (px_x px_y : Series) : list (Z * (float * float)) :=
  List.filter row_notna (inner_join px_x px_y).

Definition Qsum (l : list Q) : Q := fold_right Qadd 0%Q l.

Definition Qmean (l : list Q) : Q :=
  Qquo (Qsum l) (inject_Z (Z.of_nat (length l))).

Definition Qsq (x : Q) : Q := Qmul x x.

(** Sum of squared deviations from the mean. *)
Definition Qssd (l : list Q) : Q :=
  Qsum (map (fun x => Qsq (Qsub x (Qmean l))) l).

Definition finite_val (x : float) : option Q :=
  match x with Fin v => Some v | _ => None end.

Definition finite_vals (l : list float) : list Q := omap finite_val l.

Definition all_finite (l : list float) : bool := forallb isfinite l.

(** statsmodels' [add_constant] on a 1-d NumPy array with the default
    [has_constant='skip']: a column that is already a non-zero constant
    ([np.ptp(x) == 0] and [np.all(x != 0)]) is returned as it is, without a
    column of ones. *)
Definition is_nonzero_const (x : list Q) : bool :=
  match x with
  | [] => false
  | c :: _ => forallb (fun v => Qeq_bool v c) x && forallb (fun v => negb (Qzerob v)) x
  end.

(** Second row of [pinv([1 | x])]: the weights that give the slope as a
    linear combination of the dependent values.  When [x] is identically zero
    the design has rank one and the minimum-norm solution has slope zero. *)
Definition slope_weights (x : list Q) : list Q :=
  let sxx := Qssd x in
  if Qzerob sxx then map (fun _ => 0%Q) x
  else map (fun v => Qquo (Qsub v (Qmean x)) sxx) x.

(** [OLS(y, add_constant(x)).fit().params[1]]. *)
Definition ols_slope (y x : list float) : result float :=
  if all_finite x then
    let xq := finite_vals x in
    if is_nonzero_const xq then Raise IndexError
    else Ok (fsum (zip_with fmul (map Fin (slope_weights xq)) y))
  else Raise MissingDataError.

Definition compute_hedge_ratio (px_x px_y : Series) : result float :=
  let al := aligned px_x px_y in
  if Z.of_nat (length al) <? 10 then Ok NaN
  else
    let y := map (fun r => fst (snd r)) al in
    let x := map (fun r => snd (snd r)) al in
    ols_slope y x.

(** Scalar times series. *)
Definition series_scale (b : float) (s : Series) : Series :=
  map (fun p => (fst p, fmul b (snd p))) s.

(** Series arithmetic aligns on the index: position by position when the two
    indexes are equal, otherwise over the sorted union of the labels, with
    NaN where a side has no value. *)
Definition union_index (a b : list Z) : list Z :=
  merge_sort Z.le (remove_dups (a ++ b)).

Definition series_binop (op : float -> float -> float) (a b : Series) : Series :=
  if decide (index a = index b) then
    zip_with (fun p r => (fst p, op (snd p) (snd r))) a b
  else
    map (fun t => (t, op (default NaN (loc a t)) (default NaN (loc b t))))
        (union_index (index a) (index b)).

Definition series_sub := series_binop fsub.
Definition series_div := series_binop fdiv.

(** The trailing window of [window] positions ending at position [i]. *)
Definition window_at (window : Z) (v : list float) (i : nat) : list float :=
  drop (S i - Z.to_nat window) (take (S i) v).

(** The observations of a window: rolling kernels see an infinity as NaN, and
    skip NaN. *)
Definition observations (window : Z) (v : list float) (i : nat) : list Q :=
  finite_vals (window_at window v i).

Definition roll_mean_at (minp : Z) (obs : list Q) : float :=
  let nobs := Z.of_nat (length obs) in
  if (minp <=? nobs) && (0 <? nobs) then Fin (Qmean obs) else NaN.

(** Sample variance, [ddof = 1]. *)
Definition roll_var_at (minp : Z) (obs : list Q) : float :=
  let nobs := Z.of_nat (length obs) in
  if (minp <=? nobs) && (1 <? nobs)
  then Fin (Qquo (Qssd obs) (inject_Z (nobs - 1)))
  else NaN.

Definition rolling (window min_periods : Z) (kernel : Z -> list Q -> float)
    (s : Series) : result Series :=
  if window <? 0 then Raise ValueError
  else
    Ok (imap (fun i p => (fst p, kernel min_periods (observations window (values s) i))) s).

Section Sqrt.
(** The square root of finite non-negative numbers is a parameter of the
    model: exact rationals have none. *)
Variable Qsqrt : Q -> Q.

Definition fsqrt (x : float) : float :=
  match x with
  | Fin v => Fin (Qsqrt v)
  | _ => x
  end.

Definition roll_std_at (minp : Z) (obs : list Q) : float :=
  fsqrt (roll_var_at minp obs).

Definition rolling_mean (window min_periods : Z) (s : Series) : result Series :=
  rolling window min_periods roll_mean_at s.

Definition rolling_std (window min_periods : Z) (s : Series) : result Series :=
  rolling window min_periods roll_std_at s.

Definition zscore (spread roll_mean roll_std : Series) : Series :=
  series_div (series_sub spread roll_mean) roll_std.

Definition compute_spread_and_zscore (px_x px_y : Series) (window : Z)
    : result (Series * Series) :=
  beta ← compute_hedge_ratio px_x px_y;
  if isnan beta then Ok ([], [])
  else
    let spread := series_sub px_x (series_scale beta px_y) in
    roll_mean ← rolling_mean window (window / 2) spread;
    roll_std ← rolling_std window (window / 2) spread;
    Ok (spread, zscore spread roll_mean roll_std).
End Sqrt.

(** A computable square root for the examples: the floor of the root of
    [n * d], over [d]. *)
Definition Qsqrt_floor (v : Q) : Q :=
  Qred (Qmake (Z.sqrt (Qnum v * Zpos (Qden v))) (Qden v)).

(** ** What the claims speak about *)



(** Bucket length of a timeframe, in microseconds. *)
Definition width_of (timeframe : string) : Z :=
  if decide (timeframe = "1s") then 1000000
  else if decide (timeframe = "5m") then 5 * minute
  else minute.

(** The stored ticks of one symbol inside one bucket of the queried range, in
    storage order. *)
Definition in_bucket (w cut : Z) (sym : string) (b : Z) (t : Tick.t) : bool :=
  bool_decide (Tick.symbol t = sym) && (cut <=? Tick.ts t)
  && (floor_ts w (Tick.ts t) =? b).

Definition bucket_ticks (db : DB) (w cut : Z) (sym : string) (b : Z)
    : list Tick.t :=
  List.filter (in_bucket w cut sym b) (ticks db).

(** Rows of the bar table with a given key. *)
Definition bar_key (b : Bar.t) : string * string * Z :=
  (Bar.symbol b, Bar.timeframe b, Bar.ts b).

Definition rows_with_key (k : string * string * Z) (tbl : list Bar.t)
    : list Bar.t :=
  List.filter (fun b => bool_decide (bar_key b = k)) tbl.

(** ** Auxiliary definitions of the statements and running examples *)

Definition ts_le (a b : TickRow.t) : Prop := TickRow.ts a <= TickRow.ts b.

(** The frame a call returns. *)
Definition resampled (db : DB) (symbols : list string) (timeframe : string)
    (minutes_back now : Z) : list BarRow.t :=
  concat (omap (symbol_frame (width_of timeframe)
                             (get_ticks db symbols minutes_back now)) symbols).

(** The rows of one bucket, as the loop groups them: the selected rows of
    the symbol, sorted by time, restricted to the bucket. *)
Definition group_of (db : DB) (symbols : list string) (minutes_back now : Z)
    (w : Z) (sym : string) (b : Z) : list TickRow.t :=
  List.filter (in_bin w b)
    (sort_by_ts (List.filter (has_symbol sym)
                             (get_ticks db symbols minutes_back now))).





Definition row_key (timeframe : string) (row : BarRow.t) : string * string * Z :=
  (BarRow.symbol row, timeframe, BarRow.ts row).

Definition count_key (k : string * string * Z) (keys : list (string * string * Z)) : nat :=
  length (List.filter (fun k' => bool_decide (k' = k)) keys).

Definition series_of (f : Z -> Z) (labels : list Z) : Series :=
  map (fun t => (t, q (f t))) labels.

Definition ten : list Z := [0; 1; 2; 3; 4; 5; 6; 7; 8; 9].

(** Ten shared timestamps; X moves, Y stays at 50. *)
Definition px_moving : Series := series_of (fun t => 100 + t * t) ten.

Definition px_flat : Series := series_of (fun _ => 50) ten.

(** X over 0..10, Y over 0..9 and 11: ten shared timestamps. *)
Definition px_x_example : Series := series_of (fun t => 100 + t * t) (ten ++ [10]).

Definition px_y_example : Series := series_of (fun t => 50 + t) (ten ++ [11]).

Definition px_seven : Series := series_of (fun _ => 7) [0; 1; 2; 3].

(** Sum of squared residuals of the line [a + b x] on the points [(x, y)]. *)
Definition sse (d : list (Q * Q)) (a b : Q) : Q :=
  Qsum (map (fun p => Qsq (snd p - (a + b * fst p))) d).

Definition Qlen {A} (l : list A) : Q := inject_Z (Z.of_nat (length l)).

(** ** Further definitions: statements, rolling correlation, stationarity test *)

(** Lines 33 to 35 of [compute_spread_and_zscore]: the z-score of a spread. *)
Definition spread_zscore (Qsqrt : Q -> Q) (spread : Series) (window : Z)
    : result Series :=
  roll_mean ← rolling_mean window (window / 2) spread;
  roll_std ← rolling_std Qsqrt window (window / 2) spread;
  Ok (zscore spread roll_mean roll_std).




(** A stored bar as a row of the frame. *)
Definition row_of_bar (b : Bar.t) : BarRow.t :=
  BarRow.mk (Bar.symbol b) (Bar.ts b) (Bar.open b) (Bar.high b) (Bar.low b)
            (Bar.close b) (Bar.volume b).

Definition bar_ts_lt (a b : BarRow.t) : Prop := BarRow.ts a < BarRow.ts b.

Definition tick_key (t : Tick.t) : string * Z := (Tick.symbol t, Tick.ts t).

(** Rolling kernels receive their input with every infinity replaced by NaN. *)
Definition prep_values (v : list float) : list float :=
  map (fun x => if isinf x then NaN else x) v.

(** pandas prepares the two sides of a pairwise rolling moment as
    [X = a + 0 * b] and [Y = b + 0 * a], so that each is NaN where the other
    has no number. *)
Definition prep_binary (a b : list float) : list float * list float :=
  (zip_with (fun x y => fadd x (fmul (Fin 0%Q) y)) a b,
   zip_with (fun x y => fadd y (fmul (Fin 0%Q) x)) a b).

(** Number of positions of the window at [i] where both sides have a value. *)
Definition count_at (window : Z) (x y : list float) (i : nat) : Q :=
  inject_Z (Z.of_nat (length (List.filter notna
                                (window_at window (zip_with fadd x y) i)))).

Section Corr.
Variable Qsqrt : Q -> Q.

(** The rolling Pearson correlation at position [i]. *)
Definition corr_at (window minp : Z) (x y : list float) (i : nat) : float :=
  let mean_x_y := roll_mean_at minp (observations window (zip_with fmul x y) i) in
  let mean_x := roll_mean_at minp (observations window x i) in
  let mean_y := roll_mean_at minp (observations window y i) in
  let count_x_y := Fin (count_at window x y i) in
  let x_var := roll_var_at minp (observations window x i) in
  let y_var := roll_var_at minp (observations window y i) in
  let numerator :=
    fmul (fsub mean_x_y (fmul mean_x mean_y))
         (fdiv count_x_y (fsub count_x_y (Fin 1%Q))) in
  let denominator := fsqrt Qsqrt (fmul x_var y_var) in
  fdiv numerator denominator.

(** [compute_rolling_corr]: [rolling(window)] has [min_periods = window]. *)
Definition compute_rolling_corr (px_x px_y : Series) (window : Z)
    : result Series :=
  let al := aligned px_x px_y in
  if Z.of_nat (length al) <? window then Ok []
  else if window <? 0 then Raise ValueError
  else
    let xy := prep_binary (map (fun r => fst (snd r)) al)
                          (map (fun r => snd (snd r)) al) in
    let x := prep_values (fst xy) in
    let y := prep_values (snd xy) in
    Ok (imap (fun i r => (fst r, corr_at window window x y i)) al).
End Corr.

Section Adf.
(** statsmodels' [adfuller], reduced to what [run_adf_test] reads of its
    result: the statistic and the p-value. *)
Variable adfuller : list float -> result (float * float).

Definition run_adf_test (spread : Series)
    : result (option float * option float) :=
  let v := List.filter notna (values spread) in
  if Z.of_nat (length v) <? 20 then Ok (None, None)
  else
    r ← adfuller v;
    Ok (Some (fst r), Some (snd r)).
End Adf.

Definition bar_10_00 : BarRow.t :=
  BarRow.mk "A" t_10_00_00 (q 100) (q 101) (q 100) (q 101) (q 3).
Definition bar_10_05 : BarRow.t :=
  BarRow.mk "A" (t_10_00_00 + 5 * minute) (q 99) (q 99) (q 99) (q 99) (q 4).
Definition db_example_rev : DB := mkDB (rev (ticks db_example)) [].
Definition px_zero : Series := series_of (fun _ => 0) ten.
Definition px_short_x : Series := series_of (fun t => 100 + t) [0; 1; 2; 3; 4; 5].
Definition px_short_y : Series := series_of (fun t => 50 + 2 * t) [0; 1; 2; 3; 4; 5].
Definition points_example : list (Q * Q) :=
  map (fun t => (inject_Z (50 + t), inject_Z (100 + t * t))) ten.
Definition adfuller_unavailable (v : list float) : result (float * float) :=
  Raise ValueError.

(** ** Messages of [ingestion/binance_ws.py]

    [json.loads] yields a [json] value; a message that is not JSON is [None].
    The callback [on_message] makes at most one call of [insert_tick]: the
    model returns the arguments of that call, or [None] when the callback
    ends without one (no trade, or an exception, which the websocket client
    catches).  As elsewhere, numbers are exact: [t_ms / 1000.0] is the
    rational it denotes. *)

#[local] Set Warnings "-register-all".
Inductive json :=
  | JNull
  | JBool (b : bool)
  | JInt (n : Z)
  | JFloat (x : float)
  | JStr (s : string)
  | JArr (l : list json)
  | JObj (fields : gmap string json).

(** [bool(v)]. *)
Definition truthy (v : json) : bool :=
  match v with
  | JNull => false
  | JBool b => b
  | JInt n => negb (n =? 0)
  | JFloat (Fin x) => negb (Qzerob x)
  | JFloat _ => true
  | JStr s => negb (bool_decide (s = ""))
  | JArr l => match l with [] => false | _ => true end
  | JObj m => negb (bool_decide (m = ∅))
  end.

(** [a or b]. *)
Definition py_or (a b : json) : json := if truthy a then a else b.

(** [d.get(k)] and [d.get(k, default)]. *)
Definition get (d : gmap string json) (k : string) : json :=
  default JNull (d !! k).
Definition get_or (d : gmap string json) (k : string) (dflt : json) : json :=
  default dflt (d !! k).

(** The value of [t_ms / 1000.0] times 1000, as a rational; [None] where the
    division raises (no number) or the conversion to a datetime does (NaN,
    infinity). *)
Definition number (v : json) : option Q :=
  match v with
  | JInt n => Some (inject_Z n)
  | JBool b => Some (if b then 1%Q else 0%Q)
  | JFloat (Fin x) => Some x
  | _ => None
  end.

(** Rounding to the nearest integer, ties to even. *)
Definition round_half_even (x : Q) : Z :=
  let f := Qfloor x in
  match Qcompare (x - inject_Z f)%Q (1 # 2)%Q with
  | Lt => f
  | Gt => f + 1
  | Eq => if Z.even f then f else f + 1
  end.

(** The range of [datetime], in microseconds since the epoch. *)
Definition datetime_min : Z := -62135596800000000.
Definition datetime_max : Z := 253402300799999999.


(** [datetime.utcfromtimestamp(t_ms / 1000.0)]: the nearest microsecond. *)
Definition utcfromtimestamp_ms (t_ms : json) : option Z :=
  match number t_ms with
  | Some ms =>
      let us := round_half_even (ms * inject_Z 1000)%Q in
      if (datetime_min <=? us) && (us <=? datetime_max) then Some us else None
  | None => None
  end.

(** The dictionary [_normalize_trade] returns. *)
Module Norm.
Record t := mk {
  symbol : json;
  ts : Z;
  price : float;
  size : float
}.
End Norm.

(** The least integer that [float] does not convert: half way between the
    largest binary64 number, [2^1024 - 2^971], and [2^1024]. *)
Definition float_overflow : Z := 2 ^ 1024 - 2 ^ 970.

Section Ingestion.
(** [float(s)] on a string: the parsed value, or [None] where it raises. *)
Variable float_of_string : string -> option float.

(** [float(v)]; an integer that rounds beyond the largest binary64 number
    raises OverflowError. *)
Definition py_float (v : json) : option float :=
  match v with
  | JInt n =>
      if Z.abs n <? float_overflow then Some (Fin (inject_Z n)) else None
  | JBool b => Some (Fin (if b then 1%Q else 0%Q))
  | JFloat x => Some x
  | JStr s => float_of_string s
  | _ => None
  end.

(** [_normalize_trade]; [None] where it raises. *)
Definition _normalize_trade (now : Z) (j : gmap string json) : option Norm.t :=
  let t_ms := py_or (get j "T") (get j "E") in
  ts ← match t_ms with
       | JNull => Some now
       | _ => utcfromtimestamp_ms t_ms
       end;
  let symbol := get j "s" in
  price ← py_float (get_or j "p" (JFloat (Fin 0%Q)));
  size ← py_float (get_or j "q" (JFloat (Fin 0%Q)));
  Some (Norm.mk symbol ts price size).

(** [j.get("e") == "trade"]. *)
Definition is_trade (d : gmap string json) : bool :=
  match d !! "e" with
  | Some (JStr s) => bool_decide (s = "trade")
  | _ => false
  end.

(** [on_message]: the arguments of its call of [insert_tick], if any. *)
Definition on_message (now : Z) (message : option json) : option Norm.t :=
  match message with
  | None => None
  | Some j =>
      match j with
      | JObj d =>
          if is_trade d then _normalize_trade now d
          else
            match get d "data" with
            | JObj data => if is_trade data then _normalize_trade now data else None
            | _ => None
            end
      | _ => None
      end
  end.
End Ingestion.

(** Millisecond timestamps below [2^33] seconds (year 2242): there binary64
    holds [t_ms / 1000.0] to within half a microsecond, and the conversion
    to a datetime is the exact one. *)
Definition ms_exact : Z := 2 ^ 33 * 1000.

(** A trade as the futures stream sends it, and a parser for its numbers. *)
Definition float_of_string_example (s : string) : option float :=
  if decide (s = "50000.5") then Some (Fin (100001 # 2))
  else if decide (s = "0.25") then Some (Fin (1 # 4))
  else None.
Definition trade_example : gmap string json :=
  {[ "e" := JStr "trade"; "T" := JInt 1700000000123; "E" := JInt 1700000000999;
     "s" := JStr "BTCUSDT"; "p" := JStr "50000.5"; "q" := JStr "0.25" ]}.
Definition norm_example : Norm.t :=
  Norm.mk (JStr "BTCUSDT") 1700000000123000 (Fin (100001 # 2)) (Fin (1 # 4)).

(** ** The ingestor's life cycle ([ingestion/binance_ws.py])

    A thread is known by the symbol whose stream it reads.  The state of the
    module is its global [_ingestor_instance], together with what it has set
    off so far: the threads started, in order, and the calls of [init_db]. *)

Module Ingestor.
Record t := mk {
  symbols : list string;
  _threads : list string;
  _running : bool
}.
End Ingestor.

Record Runtime := mkRuntime {
  _ingestor_instance : option Ingestor.t;
  started : list string;
  init_db_calls : nat
}.

Definition at_import : Runtime := mkRuntime None [] 0.

(** What the dashboard can call: [get_or_create_ingestor], and [start] and
    [stop] on the ingestor it was handed, which is the global one. *)
Inductive call :=
  | GetOrCreate (symbols : list string)
  | Start
  | Stop.

#[global] Instance call_eq_dec : EqDecision call.
Proof. solve_decision. Defined.

Section Lifecycle.
(** [str.lower]. *)
Variable lower : string -> string.

(** [BinanceFuturesTickIngestor.__init__]. *)
Definition __init__ (symbols : list string) : Ingestor.t :=
  Ingestor.mk (map lower symbols) [] false.

(** [start]: the ingestor afterwards, and the threads it has started. *)
Definition start (self : Ingestor.t) : Ingestor.t * list string :=
  if Ingestor._running self then (self, [])
  else
    (Ingestor.mk (Ingestor.symbols self) (Ingestor.symbols self) true,
     Ingestor.symbols self).

(** [stop] clears the flag; no thread ends. *)
Definition stop (self : Ingestor.t) : Ingestor.t :=
  Ingestor.mk (Ingestor.symbols self) (Ingestor._threads self) false.

Definition get_or_create_ingestor (symbols : list string) (rt : Runtime)
    : Ingestor.t * Runtime :=
  match _ingestor_instance rt with
  | Some ing => (ing, rt)
  | None =>
      let r := start (__init__ symbols) in
      (fst r,
       mkRuntime (Some (fst r)) (started rt ++ snd r) (S (init_db_calls rt)))
  end.

Definition step (rt : Runtime) (c : call) : Runtime :=
  match c with
  | GetOrCreate symbols => snd (get_or_create_ingestor symbols rt)
  | Start =>
      match _ingestor_instance rt with
      | Some ing =>
          let r := start ing in
          mkRuntime (Some (fst r)) (started rt ++ snd r) (init_db_calls rt)
      | None => rt
      end
  | Stop =>
      match _ingestor_instance rt with
      | Some ing => mkRuntime (Some (stop ing)) (started rt) (init_db_calls rt)
      | None => rt
      end
  end.

Definition run (calls : list call) (rt : Runtime) : Runtime :=
  fold_left step calls rt.
End Lifecycle.

(** ** The dashboard's latest value and alert ([app.py]) *)

Definition fabs (x : float) : float :=
  match x with
  | NaN => NaN
  | Inf _ => Inf false
  | Fin q => Fin (if Qnegb q then (- q)%Q else q)
  end.

(** [s.dropna().iloc[-1] if not s.dropna().empty else np.nan]. *)
Definition latest (s : Series) : float :=
  List.last (List.filter notna (values s)) NaN.

(** [not np.isnan(latest_z) and abs(latest_z) >= z_alert_thresh]. *)
Definition alert (z_alert_thresh latest_z : float) : bool :=
  negb (isnan latest_z) && fleb z_alert_thresh (fabs latest_z).

(** * Properties *)

(** ** Floats *)

Lemma notna_true (x : float) : notna x = true <-> x <> NaN.
Proof. destruct x; unfold notna; simpl; split; congruence. Qed.

Lemma fleb_refl (x : float) : notna x = true -> fleb x x = true.
Proof.
  destruct x as [|[]|a]; unfold notna; simpl; try congruence.
  intros _. apply Qle_bool_iff, Qle_refl.
Qed.

Lemma fleb_trans (x y z : float) :
  fleb x y = true -> fleb y z = true -> fleb x z = true.
Proof.
  destruct x as [|[]|a], y as [|[]|b], z as [|[]|c]; simpl; try congruence.
  rewrite !Qle_bool_iff. apply Qle_trans.
Qed.

Lemma fleb_total (x y : float) :
  notna x = true -> notna y = true -> fleb x y = false -> fleb y x = true.
Proof.
  destruct x as [|[]|a], y as [|[]|b]; unfold notna; simpl; try congruence.
  intros _ _ H. apply Qle_bool_iff.
  destruct (Qlt_le_dec b a) as [Hlt|Hle].
  - now apply Qlt_le_weak.
  - apply Qle_bool_iff in Hle. congruence.
Qed.

Lemma Qadd_comm (a b : Q) : Qadd a b = Qadd b a.
Proof. apply Qred_complete, Qplus_comm. Qed.

Lemma Qadd_assoc (a b c : Q) : Qadd a (Qadd b c) = Qadd (Qadd a b) c.
Proof.
  apply Qred_complete. unfold Qadd.
  rewrite !Qred_correct. apply Qplus_assoc.
Qed.

Lemma fadd_comm (x y : float) : fadd x y = fadd y x.
Proof.
  destruct x as [|[]|a], y as [|[]|b]; simpl; try reflexivity.
  now rewrite Qadd_comm.
Qed.

Lemma fadd_assoc (x y z : float) : fadd x (fadd y z) = fadd (fadd x y) z.
Proof.
  destruct x as [|[]|a], y as [|[]|b], z as [|[]|c]; simpl; try reflexivity.
  now rewrite Qadd_assoc.
Qed.

(** A sum does not depend on the order of its terms. *)
Lemma fsum_Permutation (l k : list float) : Permutation l k -> fsum l = fsum k.
Proof.
  induction 1 as [|x l k _ IH|x y l|l k m _ IH1 _ IH2]; simpl.
  - reflexivity.
  - now rewrite IH.
  - rewrite !fadd_assoc. now rewrite (fadd_comm y x).
  - congruence.
Qed.

(** ** Lists of rows *)

Lemma filter_sublist {A} (f : A -> bool) (l : list A) :
  sublist (List.filter f l) l.
Proof.
  induction l as [|x l IH]; simpl.
  - constructor.
  - destruct (f x); now constructor.
Qed.



Lemma selected_spec (symbols : list string) (cut : Z) (t : Tick.t) :
  selected symbols cut t = true <-> Tick.symbol t ∈ symbols /\ cut <= Tick.ts t.
Proof.
  unfold selected. rewrite andb_true_iff, bool_decide_eq_true, Z.leb_le.
  reflexivity.
Qed.

(** ** The tick store *)

(** *** The order of the index on [symbol] *)



Lemma string_leb_refl (s : string) : String.leb s s = true.
Proof. now destruct (String.leb_total s s). Qed.


Lemma insert_by_symbol_Permutation (r : Tick.t) (l : list Tick.t) :
  Permutation (insert_by_symbol r l) (r :: l).
Proof.
  induction l as [|h l IH]; simpl; [reflexivity|].
  destruct (String.leb _ _); [reflexivity|].
  rewrite IH. apply perm_swap.
Qed.

Lemma index_order_Permutation (l : list Tick.t) :
  Permutation (index_order l) l.
Proof.
  induction l as [|x l IH]; simpl; [reflexivity|].
  rewrite insert_by_symbol_Permutation. now constructor.
Qed.



(** The sort is stable: the rows of one symbol keep their order. *)
Lemma filter_insert_by_symbol (s : string) (r : Tick.t) (l : list Tick.t) :
  List.filter (of_symbol s) (insert_by_symbol r l)
  = List.filter (of_symbol s) (r :: l).
Proof.
  induction l as [|h l IH]; [reflexivity|].
  cbn [insert_by_symbol].
  destruct (String.leb (Tick.symbol r) (Tick.symbol h)) eqn:E; [reflexivity|].
  cbn [List.filter] in *. rewrite IH.
  destruct (of_symbol s r) eqn:Er; [|reflexivity].
  destruct (of_symbol s h) eqn:Eh; [|reflexivity].
  apply bool_decide_eq_true in Er, Eh.
  rewrite Er, Eh, string_leb_refl in E. discriminate.
Qed.

Lemma filter_index_order (s : string) (l : list Tick.t) :
  List.filter (of_symbol s) (index_order l) = List.filter (of_symbol s) l.
Proof.
  induction l as [|x l IH]; [reflexivity|].
  cbn [index_order fold_right]. rewrite filter_insert_by_symbol.
  cbn [List.filter]. fold (index_order l). now rewrite IH.
Qed.

Lemma filter_all_true {A} (f : A -> bool) (l : list A) :
  (forall x, In x l -> f x = true) -> List.filter f l = l.
Proof.
  induction l as [|x l IH]; intros H; [reflexivity|].
  simpl. rewrite (H x (or_introl eq_refl)). f_equal.
  apply IH. intros y Hy. apply H. now right.
Qed.

Lemma index_order_one_symbol (s : string) (l : list Tick.t) :
  (forall t, In t l -> Tick.symbol t = s) -> index_order l = l.
Proof.
  intros H.
  rewrite <- (filter_all_true (of_symbol s) (index_order l)).
  - rewrite filter_index_order. apply filter_all_true.
    intros t Ht. apply bool_decide_eq_true_2. now apply H.
  - intros t Ht. apply bool_decide_eq_true_2. apply H.
    apply (Permutation_in _ (index_order_Permutation l)), Ht.
Qed.





Lemma filter_map_comm {A B} (f : B -> bool) (g : A -> B) (l : list A) :
  List.filter f (map g l) = map g (List.filter (fun a => f (g a)) l).
Proof.
  induction l as [|x l IH]; simpl; [reflexivity|].
  destruct (f (g x)); simpl; now rewrite IH.
Qed.

Lemma filter_filter_andb {A} (f g : A -> bool) (l : list A) :
  List.filter f (List.filter g l) = List.filter (fun a => f a && g a) l.
Proof.
  induction l as [|x l IH]; simpl; [reflexivity|].
  destruct (g x); simpl.
  - rewrite andb_true_r. destruct (f x); now rewrite IH.
  - now rewrite andb_false_r.
Qed.

Lemma get_ticks_Permutation_scan (db : DB) (symbols : list string)
    (minutes_back now : Z) :
  Permutation (get_ticks db symbols minutes_back now)
    (map tick_row
         (List.filter (selected symbols (cutoff now minutes_back)) (ticks db))).
Proof. unfold get_ticks. apply Permutation_map, index_order_Permutation. Qed.

Lemma elem_of_get_ticks (db : DB) (symbols : list string)
    (minutes_back now : Z) (r : TickRow.t) :
  r ∈ get_ticks db symbols minutes_back now <->
  exists t, t ∈ ticks db /\ r = tick_row t
            /\ selected symbols (cutoff now minutes_back) t = true.
Proof.
  rewrite list_elem_of_In. split.
  - intros Hr.
    apply (Permutation_in _ (get_ticks_Permutation_scan _ _ _ _)) in Hr.
    apply in_map_iff in Hr as (t & <- & Ht). apply filter_In in Ht as [Ht Hs].
    exists t. now rewrite list_elem_of_In.
  - intros (t & Ht & -> & Hs).
    apply (Permutation_in _ (Permutation_sym (get_ticks_Permutation_scan _ _ _ _))).
    apply in_map, filter_In. now rewrite <- list_elem_of_In.
Qed.

(** The rows of one symbol come in storage order. *)
Lemma get_ticks_of_symbol (db : DB) (symbols : list string)
    (minutes_back now : Z) (s : string) :
  List.filter (has_symbol s) (get_ticks db symbols minutes_back now)
  = List.filter (has_symbol s)
      (map tick_row
           (List.filter (selected symbols (cutoff now minutes_back)) (ticks db))).
Proof.
  unfold get_ticks. rewrite !filter_map_comm. f_equal.
  apply (filter_index_order s).
Qed.

(** A query for one symbol returns its rows in storage order. *)
Lemma get_ticks_single (db : DB) (s : string) (minutes_back now : Z) :
  get_ticks db [s] minutes_back now
  = map tick_row
        (List.filter (selected [s] (cutoff now minutes_back)) (ticks db)).
Proof.
  unfold get_ticks. f_equal. apply (index_order_one_symbol s).
  intros t Ht. apply filter_In in Ht as [_ Ht].
  apply selected_spec in Ht as [Ht _].
  apply list_elem_of_In in Ht as [Ht|[]]. now symmetry.
Qed.


(** C4 (as the code has it): [insert_tick] validates nothing.  Whatever the
    symbol, price and quantity are, the call returns normally, appends exactly
    one row holding the arguments, leaves the bar table alone, and the row is
    visible to a later [get_ticks] whose symbols and cutoff select it. *)
Theorem insert_tick_always_records (db : DB) (symbol : string) (ts : Z)
    (price qty : float) :
  exists db',
    insert_tick db symbol ts price qty = Ok db'
    /\ ticks db' = ticks db ++ [Tick.mk (next_id (ticks db)) symbol ts price qty]
    /\ bars db' = bars db
    /\ forall symbols minutes_back now,
         symbol ∈ symbols -> cutoff now minutes_back <= ts ->
         TickRow.mk symbol ts price qty ∈ get_ticks db' symbols minutes_back now.
Proof.
  eexists. split; [reflexivity|]. simpl. repeat split.
  intros symbols minutes_back now Hs Hc.
  apply elem_of_get_ticks.
  exists (Tick.mk (next_id (ticks db)) symbol ts price qty).
  split; [|split; [reflexivity|]].
  - cbn [ticks]. apply list_elem_of_In, in_or_app. right. now left.
  - now apply selected_spec.
Qed.

(** C4, refuted as stated: a tick with an empty symbol, a NaN price and an
    infinite quantity is accepted and stored. *)
Lemma insert_tick_accepts_invalid :
  ~ raises (insert_tick (mkDB [] []) "" 0 NaN (Inf false))
  /\ insert_tick (mkDB [] []) "" 0 NaN (Inf false)
     = Ok (mkDB [Tick.mk 1 "" 0 NaN (Inf false)] []).
Proof.
  split; [|reflexivity].
  intros [e He]. discriminate He.
Qed.




(** ** Sorting by timestamp *)

Lemma insert_row_Permutation (r : TickRow.t) (l : list TickRow.t) :
  Permutation (insert_row r l) (r :: l).
Proof.
  induction l as [|h l IH]; simpl; [reflexivity|].
  destruct (TickRow.ts r <=? TickRow.ts h); [reflexivity|].
  rewrite IH. apply perm_swap.
Qed.

Lemma sort_by_ts_Permutation (l : list TickRow.t) :
  Permutation (sort_by_ts l) l.
Proof.
  induction l as [|x l IH]; simpl; [reflexivity|].
  rewrite insert_row_Permutation. now constructor.
Qed.

Lemma insert_row_sorted (r : TickRow.t) (l : list TickRow.t) :
  StronglySorted ts_le l -> StronglySorted ts_le (insert_row r l).
Proof.
  induction 1 as [|h l Hs IH Hh]; simpl.
  - repeat constructor.
  - destruct (TickRow.ts r <=? TickRow.ts h) eqn:E.
    + apply Z.leb_le in E. constructor; [now constructor|].
      constructor; [exact E|].
      eapply List.Forall_impl; [|exact Hh]. unfold ts_le. intros; simpl in *; lia.
    + apply Z.leb_gt in E. constructor; [exact IH|].
      rewrite List.Forall_forall. intros x Hx.
      apply (Permutation_in _ (insert_row_Permutation r l)) in Hx.
      destruct Hx as [<-|Hx]; [unfold ts_le; lia|].
      rewrite List.Forall_forall in Hh. now apply Hh.
Qed.

Lemma sort_by_ts_sorted (l : list TickRow.t) :
  StronglySorted ts_le (sort_by_ts l).
Proof.
  induction l as [|x l IH]; simpl; [constructor|].
  now apply insert_row_sorted.
Qed.

Lemma filter_sorted {A} (R : A -> A -> Prop) (f : A -> bool) (l : list A) :
  StronglySorted R l -> StronglySorted R (List.filter f l).
Proof.
  induction 1 as [|h l Hs IH Hh]; simpl; [constructor|].
  destruct (f h); [|exact IH].
  constructor; [exact IH|].
  rewrite List.Forall_forall in *. intros x Hx.
  apply filter_In in Hx. now apply Hh.
Qed.

Lemma filter_Permutation' {A} (f : A -> bool) (l k : list A) :
  Permutation l k -> Permutation (List.filter f l) (List.filter f k).
Proof.
  induction 1 as [|x l k _ IH|x y l|l k m _ IH1 _ IH2]; simpl.
  - reflexivity.
  - destruct (f x); [now constructor|exact IH].
  - destruct (f x), (f y); try reflexivity. apply perm_swap.
  - now transitivity (List.filter f k).
Qed.

Lemma sorted_head_min {A} (R : A -> A -> Prop) (x : A) (l : list A) :
  StronglySorted R (x :: l) -> forall y, In y l -> R x y.
Proof.
  intros H y Hy. apply StronglySorted_inv in H as [_ H].
  rewrite List.Forall_forall in H. now apply H.
Qed.

Lemma sorted_last_max {A} (R : A -> A -> Prop) (l : list A) (x : A) :
  StronglySorted R (l ++ [x]) -> forall y, In y l -> R y x.
Proof.
  induction l as [|h l IH]; simpl; intros H y Hy; [contradiction|].
  apply StronglySorted_inv in H as [Hs Hh].
  destruct Hy as [<-|Hy].
  - rewrite List.Forall_forall in Hh. apply Hh, in_or_app. right. now left.
  - now apply IH.
Qed.

(** ** Skip-NaN reductions *)


Lemma agg_first_in (l : list float) :
  notna (agg_first l) = true -> In (agg_first l) l.
Proof.
  unfold agg_first. intros H.
  destruct (List.filter notna l) as [|x k] eqn:E; [discriminate H|].
  assert (In x (List.filter notna l)) as Hx by (rewrite E; now left).
  now apply filter_In in Hx.
Qed.

Lemma agg_max_ub (l : list float) (x : float) :
  In x l -> notna x = true -> fleb x (agg_max l) = true.
Proof.
  induction l as [|a l IH]; simpl; [contradiction|].
  intros Hin Hx. unfold fmax.
  destruct (isnan a) eqn:Ea.
  - destruct Hin as [->|Hin]; [unfold notna in Hx; rewrite Ea in Hx; discriminate|].
    now apply IH.
  - destruct (isnan (agg_max l)) eqn:Em.
    + destruct Hin as [->|Hin]; [now apply fleb_refl|].
      specialize (IH Hin Hx). destruct (agg_max l); simpl in *; try discriminate.
      destruct x as [|[]|]; discriminate IH.
    + destruct (fleb a (agg_max l)) eqn:El.
      * destruct Hin as [->|Hin]; [exact El|now apply IH].
      * destruct Hin as [->|Hin]; [now apply fleb_refl|].
        apply fleb_trans with (agg_max l); [now apply IH|].
        apply fleb_total; unfold notna; try rewrite Ea; try rewrite Em; auto.
Qed.

Lemma agg_max_in (l : list float) :
  notna (agg_max l) = true -> In (agg_max l) l.
Proof.
  induction l as [|a l IH]; simpl; [discriminate|].
  unfold fmax.
  destruct (isnan a) eqn:Ea; [intros; right; auto|].
  destruct (isnan (agg_max l)) eqn:Em; [now left|].
  destruct (fleb a (agg_max l)); [|now left].
  intros H. right. now apply IH.
Qed.

Lemma agg_min_lb (l : list float) (x : float) :
  In x l -> notna x = true -> fleb (agg_min l) x = true.
Proof.
  induction l as [|a l IH]; simpl; [contradiction|].
  intros Hin Hx. unfold fmin.
  destruct (isnan a) eqn:Ea.
  - destruct Hin as [->|Hin]; [unfold notna in Hx; rewrite Ea in Hx; discriminate|].
    now apply IH.
  - destruct (isnan (agg_min l)) eqn:Em.
    + destruct Hin as [->|Hin]; [now apply fleb_refl|].
      specialize (IH Hin Hx). destruct (agg_min l); simpl in *; discriminate.
    + destruct (fleb a (agg_min l)) eqn:El.
      * destruct Hin as [->|Hin]; [now apply fleb_refl|].
        apply fleb_trans with (agg_min l); [exact El|now apply IH].
      * destruct Hin as [->|Hin]; [|now apply IH].
        apply fleb_total; unfold notna; try rewrite Ea; try rewrite Em; auto.
Qed.


(** ** The bar aggregator *)

Lemma to_offset_freq (timeframe : string) :
  to_offset (default "1T" (freq_map !! timeframe)) = Some (width_of timeframe).
Proof.
  unfold freq_map, width_of.
  destruct (decide (timeframe = "1s")) as [->|H1]; [reflexivity|].
  destruct (decide (timeframe = "5m")) as [->|H5]; [reflexivity|].
  destruct (decide (timeframe = "1m")) as [->|Hm]; [reflexivity|].
  rewrite !lookup_insert_ne by congruence.
  rewrite lookup_singleton_ne by congruence. reflexivity.
Qed.

Lemma omap_nil_concat {A B} (f : A -> option (list B)) (l : list A) :
  omap f l = [] -> concat (omap f l) = [].
Proof. now intros ->. Qed.

Lemma resample_ticks_to_bars_eq (db : DB) (symbols : list string)
    (timeframe : string) (minutes_back now : Z) :
  resample_ticks_to_bars db symbols timeframe minutes_back now
  = Ok (resampled db symbols timeframe minutes_back now,
        mkDB (ticks db)
             (persist_bars timeframe (bars db)
                           (resampled db symbols timeframe minutes_back now))).
Proof.
  unfold resample_ticks_to_bars, resampled.
  rewrite to_offset_freq.
  destruct (get_ticks db symbols minutes_back now) as [|r df] eqn:Edf.
  - assert (omap (symbol_frame (width_of timeframe) []) symbols = []) as ->.
    { clear Edf. induction symbols as [|s l IH]; simpl; [reflexivity|exact IH]. }
    simpl. now destruct db.
  - destruct (omap _ symbols) as [|f fs] eqn:Ef; [|reflexivity].
    simpl. now destruct db.
Qed.

Lemma in_bucket_split (symbols : list string) (w cut : Z) (sym : string)
    (b : Z) (t : Tick.t) :
  sym ∈ symbols ->
  in_bin w b (tick_row t) && (has_symbol sym (tick_row t) && selected symbols cut t)
  = in_bucket w cut sym b t.
Proof.
  intros Hs. unfold in_bin, has_symbol, selected, in_bucket. simpl.
  destruct (bool_decide (Tick.symbol t = sym)) eqn:E1; simpl.
  - apply bool_decide_eq_true in E1. rewrite E1.
    rewrite (bool_decide_eq_true_2 _ Hs). simpl.
    apply andb_comm.
  - apply andb_false_r.
Qed.

Lemma group_of_Permutation db symbols minutes_back now w sym b :
  sym ∈ symbols ->
  Permutation (group_of db symbols minutes_back now w sym b)
              (map tick_row (bucket_ticks db w (cutoff now minutes_back) sym b)).
Proof.
  intros Hs. unfold group_of, bucket_ticks.
  rewrite (filter_Permutation' _ _ _ (sort_by_ts_Permutation _)).
  rewrite get_ticks_of_symbol.
  rewrite filter_map_comm, filter_filter_andb.
  rewrite filter_map_comm, filter_filter_andb.
  erewrite filter_ext; [reflexivity|].
  intros t. simpl. now apply in_bucket_split.
Qed.


Lemma resample_symbol_inv (w : Z) (sym : string) (sub : list TickRow.t)
    (bar : BarRow.t) :
  In bar (resample_symbol w sym sub) ->
  exists b, bar = agg_bin w sym (sort_by_ts sub) b /\ ohlc_notna bar = true.
Proof.
  unfold resample_symbol.
  destruct (sort_by_ts sub) as [|r0 l] eqn:E; [contradiction|].
  intros H. apply filter_In in H as [H Hn].
  apply in_map_iff in H as (b & <- & _). now exists b.
Qed.

(** Every returned bar is the aggregate of the group of its own symbol and
    bucket start, and has all four of its prices. *)
Lemma resampled_inv db symbols timeframe minutes_back now bar :
  bar ∈ resampled db symbols timeframe minutes_back now ->
  BarRow.symbol bar ∈ symbols
  /\ ohlc_notna bar = true
  /\ let G := group_of db symbols minutes_back now (width_of timeframe)
                       (BarRow.symbol bar) (BarRow.ts bar) in
     bar = BarRow.mk (BarRow.symbol bar) (BarRow.ts bar)
             (agg_first (map TickRow.price G)) (agg_max (map TickRow.price G))
             (agg_min (map TickRow.price G)) (agg_last (map TickRow.price G))
             (agg_sum (map TickRow.qty G)).
Proof.
  unfold resampled. intros H.
  apply list_elem_of_In, in_concat in H as (frame & Hf & Hbar).
  apply list_elem_of_In, list_elem_of_omap in Hf as (sym & Hsym & Hf).
  unfold symbol_frame in Hf.
  destruct (List.filter (has_symbol sym) _) as [|r sub] eqn:E; [discriminate|].
  injection Hf as <-. rewrite <- E in Hbar.
  apply resample_symbol_inv in Hbar as (b & -> & Hn).
  simpl. repeat split; assumption.
Qed.

Lemma agg_first_nonempty (l : list float) :
  notna (agg_first l) = true -> l <> [].
Proof. intros H ->. discriminate H. Qed.

Lemma in_group_tick db symbols minutes_back now w sym b (g : TickRow.t) :
  sym ∈ symbols ->
  In g (group_of db symbols minutes_back now w sym b) ->
  exists t, t ∈ bucket_ticks db w (cutoff now minutes_back) sym b /\ tick_row t = g.
Proof.
  intros Hs Hg.
  apply (Permutation_in _ (group_of_Permutation db symbols minutes_back now w sym b Hs)) in Hg.
  apply in_map_iff in Hg as (t & <- & Ht).
  exists t. now rewrite list_elem_of_In.
Qed.


(** C9: a bucket of a symbol that holds no stored tick of the queried range
    contributes no bar to the output. *)
Theorem empty_bucket_no_bar (db : DB) (symbols : list string)
    (timeframe : string) (minutes_back now : Z) (bars_df : list BarRow.t)
    (db' : DB) (sym : string) (b : Z) :
  resample_ticks_to_bars db symbols timeframe minutes_back now = Ok (bars_df, db') ->
  bucket_ticks db (width_of timeframe) (cutoff now minutes_back) sym b = [] ->
  forall bar, bar ∈ bars_df -> ~ (BarRow.symbol bar = sym /\ BarRow.ts bar = b).
Proof.
  rewrite resample_ticks_to_bars_eq. intros [= <- _] Hempty bar Hbar [<- <-].
  apply resampled_inv in Hbar as (Hs & Hn & Hbar). simpl in Hbar.
  rewrite Hbar in Hn. unfold ohlc_notna in Hn. simpl in Hn.
  rewrite !andb_true_iff in Hn. destruct Hn as [[[Ho _] _] _].
  apply agg_first_nonempty in Ho.
  destruct (group_of db symbols minutes_back now (width_of timeframe)
                     (BarRow.symbol bar) (BarRow.ts bar)) as [|g G] eqn:E;
    [now apply Ho|].
  destruct (in_group_tick db symbols minutes_back now (width_of timeframe)
              (BarRow.symbol bar) (BarRow.ts bar) g Hs) as (t & Ht & _).
  { rewrite E. now left. }
  rewrite Hempty in Ht. inversion Ht.
Qed.



Lemma empty_bucket_no_bar_witness :
  bucket_ticks db_example minute (cutoff now_example 60) "A" (t_10_00_00 + minute) = []
  /\ forall bar,
       bar ∈ [BarRow.mk "A" t_10_00_00 (q 100) (q 101) (q 100) (q 101) (q 3);
              BarRow.mk "A" (t_10_00_00 + 5 * minute) (q 99) (q 99) (q 99) (q 99) (q 4)] ->
       ~ (BarRow.symbol bar = "A" /\ BarRow.ts bar = t_10_00_00 + minute).
Proof.
  split; [vm_compute; reflexivity|].
  eapply (empty_bucket_no_bar db_example ["A"] "1m" 60 now_example).
  - vm_compute. reflexivity.
  - vm_compute. reflexivity.
Defined.

(** The sparse-bucket scenario: ticks at 10:00:00 and 10:00:59 give one
    one-minute bar, the gap from 10:01 to 10:05 gives none. *)
Example sparse_buckets :
  resampled db_example ["A"] "1m" 60 now_example
  = [BarRow.mk "A" t_10_00_00 (q 100) (q 101) (q 100) (q 101) (q 3);
     BarRow.mk "A" (t_10_00_00 + 5 * minute) (q 99) (q 99) (q 99) (q 99) (q 4)].
Proof. vm_compute. reflexivity. Qed.

(** Reductions skip NaN: a tick stored with a NaN price does not become the
    open of its bucket, the first number does. *)
Example nan_price_skipped :
  resampled (mkDB [Tick.mk 1 "A" 0 NaN (q 1); Tick.mk 2 "A" 1 (q 7) NaN] [])
           ["A"] "1s" 60 5
  = [BarRow.mk "A" 0 (q 7) (q 7) (q 7) (q 7) (q 1)].
Proof. vm_compute. reflexivity. Qed.





(** ** The bar cache *)

Lemma persist_bars_keys (timeframe : string) (rows : list BarRow.t) :
  forall tbl,
    map bar_key (persist_bars timeframe tbl rows)
    = map bar_key tbl ++ map (row_key timeframe) rows.
Proof.
  unfold persist_bars.
  induction rows as [|r rows IH]; intros tbl; simpl.
  - now rewrite app_nil_r.
  - rewrite IH, map_app. simpl. now rewrite <- app_assoc.
Qed.

Lemma rows_with_key_count (k : string * string * Z) (tbl : list Bar.t) :
  length (rows_with_key k tbl) = count_key k (map bar_key tbl).
Proof.
  unfold rows_with_key, count_key.
  now rewrite filter_map_comm, length_map.
Qed.

Lemma count_key_app k l1 l2 :
  count_key k (l1 ++ l2) = (count_key k l1 + count_key k l2)%nat.
Proof. unfold count_key. now rewrite List.filter_app, length_app. Qed.

Lemma resampled_ticks_only (db db1 : DB) symbols timeframe minutes_back now :
  ticks db1 = ticks db ->
  resampled db1 symbols timeframe minutes_back now
  = resampled db symbols timeframe minutes_back now.
Proof. intros H. unfold resampled, get_ticks. now rewrite H. Qed.

(** C3 (as the code has it): persisting is an append.  Each call adds one
    row per returned bar without looking at the rows already there, so a
    second call over the same ticks returns the same bars and, for every key
    (symbol, timeframe, bucket start), doubles what the first call added. *)
Theorem resample_appends_bars (db : DB) (symbols : list string)
    (timeframe : string) (minutes_back now : Z) (bars_df : list BarRow.t)
    (db1 : DB) :
  resample_ticks_to_bars db symbols timeframe minutes_back now = Ok (bars_df, db1) ->
  exists db2,
    resample_ticks_to_bars db1 symbols timeframe minutes_back now = Ok (bars_df, db2)
    /\ forall k,
         length (rows_with_key k (bars db1))
         = (length (rows_with_key k (bars db))
            + count_key k (map (row_key timeframe) bars_df))%nat
         /\ length (rows_with_key k (bars db2))
            = (length (rows_with_key k (bars db))
               + 2 * count_key k (map (row_key timeframe) bars_df))%nat.
Proof.
  rewrite !resample_ticks_to_bars_eq. intros [= <- <-].
  rewrite (resampled_ticks_only db (mkDB (ticks db) _) symbols timeframe
             minutes_back now eq_refl).
  eexists. split; [reflexivity|]. simpl.
  intros k. rewrite !rows_with_key_count, !persist_bars_keys, !count_key_app.
  lia.
Qed.

Lemma resample_appends_bars_witness :
  exists db2,
    resample_ticks_to_bars
      (mkDB (ticks db_example)
            (persist_bars "1m" [] (resampled db_example ["A"] "1m" 60 now_example)))
      ["A"] "1m" 60 now_example
    = Ok (resampled db_example ["A"] "1m" 60 now_example, db2)
    /\ forall k,
         length (rows_with_key k
                   (persist_bars "1m" [] (resampled db_example ["A"] "1m" 60 now_example)))
         = (length (rows_with_key k [])
            + count_key k (map (row_key "1m") (resampled db_example ["A"] "1m" 60 now_example)))%nat
         /\ length (rows_with_key k (bars db2))
            = (length (rows_with_key k [])
               + 2 * count_key k (map (row_key "1m") (resampled db_example ["A"] "1m" 60 now_example)))%nat.
Proof.
  apply (resample_appends_bars db_example ["A"] "1m" 60 now_example).
  vm_compute. reflexivity.
Defined.

(** C3, refuted as stated: resampling the same ticks twice leaves two rows
    for the key (A, 1m, 10:00:00). *)
Lemma resample_twice_duplicates :
  exists bars1 db1 bars2 db2,
    resample_ticks_to_bars db_example ["A"] "1m" 60 now_example = Ok (bars1, db1)
    /\ resample_ticks_to_bars db1 ["A"] "1m" 60 now_example = Ok (bars2, db2)
    /\ rows_with_key ("A", "1m", t_10_00_00) (bars db2)
       = [Bar.mk 1 "A" "1m" t_10_00_00 (q 100) (q 101) (q 100) (q 101) (q 3);
          Bar.mk 3 "A" "1m" t_10_00_00 (q 100) (q 101) (q 100) (q 101) (q 3)].
Proof.
  eexists _, _, _, _. split; [vm_compute; reflexivity|].
  split; [vm_compute; reflexivity|].
  vm_compute. reflexivity.
Qed.

(** ** Pairs analytics *)

Lemma hedge_ratio_few_points (px_x px_y : Series) :
  Z.of_nat (length (aligned px_x px_y)) < 10 ->
  compute_hedge_ratio px_x px_y = Ok NaN.
Proof.
  intros H. unfold compute_hedge_ratio.
  apply Z.ltb_lt in H. now rewrite H.
Qed.

(** The alignment scenario: labels {1,2,3} and {2,3,4} align to {2,3}. *)
Example aligned_drops_unmatched :
  map fst (aligned (series_of (fun t => t) [1; 2; 3])
                   (series_of (fun t => t) [2; 3; 4])) = [2; 3].
Proof. reflexivity. Qed.

(** C6, on ten aligned points with a constant regressor: the regressor is
    already a non-zero constant, so no column of ones is added, the fit has
    a single parameter, and reading [params[1]] raises. *)
Theorem hedge_ratio_constant_regressor_raises :
  length (aligned px_moving px_flat) = 10%nat
  /\ compute_hedge_ratio px_moving px_flat = Raise IndexError.
Proof. split; vm_compute; reflexivity. Qed.

(** On ten aligned points with a moving regressor the slope comes out:
    X = 100 + t^2 against Y = 50 + t over t = 0..9 has slope 9. *)
Example hedge_ratio_ten_points :
  compute_hedge_ratio px_x_example px_y_example = Ok (q 9).
Proof. vm_compute. reflexivity. Qed.

(** C10: with fewer than ten aligned, non-NaN observations the call returns
    a pair of empty series, for every window, without raising. *)
Theorem too_few_points_empty_series (Qsqrt : Q -> Q) (px_x px_y : Series)
    (window : Z) :
  Z.of_nat (length (aligned px_x px_y)) < 10 ->
  compute_spread_and_zscore Qsqrt px_x px_y window = Ok ([], []).
Proof.
  intros H. unfold compute_spread_and_zscore.
  now rewrite (hedge_ratio_few_points _ _ H).
Qed.

Lemma too_few_points_empty_series_witness :
  Z.of_nat (length (aligned (series_of (fun t => 100 + t) [0; 1; 2; 3; 4; 5; 6; 7; 8])
                            (series_of (fun t => 50 + t) [0; 1; 2; 3; 4; 5; 6; 7; 8])))
  < 10
  /\ compute_spread_and_zscore Qsqrt_floor
       (series_of (fun t => 100 + t) [0; 1; 2; 3; 4; 5; 6; 7; 8])
       (series_of (fun t => 50 + t) [0; 1; 2; 3; 4; 5; 6; 7; 8]) (-3)
     = Ok ([], []).
Proof.
  split; [vm_compute; reflexivity|].
  apply too_few_points_empty_series. vm_compute. reflexivity.
Defined.

(** *** Series arithmetic *)

Lemma loc_index (s : Series) (t : Z) : t ∈ index s <-> is_Some (loc s t).
Proof.
  induction s as [|[t' v] s IH]; simpl.
  - split; [intros H; inversion H|intros [x H]; discriminate H].
  - destruct (t' =? t) eqn:E.
    + apply Z.eqb_eq in E. subst. split; [eauto|intros _; constructor].
    + apply Z.eqb_neq in E. rewrite <- IH. split.
      * intros H. inversion H; subst; [congruence|assumption].
      * intros H. now constructor.
Qed.

Lemma loc_None (s : Series) (t : Z) : loc s t = None <-> t ∉ index s.
Proof.
  rewrite loc_index. destruct (loc s t) as [x|]; split; intros H.
  - discriminate H.
  - exfalso. apply H. eauto.
  - intros [x Hx]. discriminate Hx.
  - reflexivity.
Qed.

Lemma index_scale (b : float) (s : Series) : index (series_scale b s) = index s.
Proof. unfold index, series_scale. rewrite map_map. reflexivity. Qed.

Lemma loc_scale (b : float) (s : Series) (t : Z) :
  loc (series_scale b s) t = fmul b <$> loc s t.
Proof.
  induction s as [|[t' v] s IH]; simpl; [reflexivity|].
  destruct (t' =? t); [reflexivity|exact IH].
Qed.

Lemma loc_zip (op : float -> float -> float) (a b : Series) (t : Z) :
  index a = index b ->
  loc (zip_with (fun p r => (fst p, op (snd p) (snd r))) a b) t
  = match loc a t, loc b t with
    | Some x, Some y => Some (op x y)
    | _, _ => None
    end.
Proof.
  revert b. induction a as [|[ta va] a IH]; intros [|[tb vb] b] H;
    simpl in *; try discriminate; [reflexivity|].
  injection H as <- H.
  destruct (ta =? t); [reflexivity|now apply IH].
Qed.

Lemma loc_labels (f : Z -> float) (l : list Z) (t : Z) :
  loc (map (fun t => (t, f t)) l) t = if decide (t ∈ l) then Some (f t) else None.
Proof.
  induction l as [|t' l IH]; simpl.
  - destruct (decide (t ∈ [])) as [H|_]; [inversion H|reflexivity].
  - destruct (t' =? t) eqn:E.
    + apply Z.eqb_eq in E. subst.
      destruct (decide (t ∈ t :: l)) as [_|H]; [reflexivity|].
      exfalso. apply H. constructor.
    + apply Z.eqb_neq in E. rewrite IH.
      destruct (decide (t ∈ l)) as [H|H], (decide (t ∈ t' :: l)) as [H'|H'];
        try reflexivity.
      * exfalso. apply H'. now constructor.
      * exfalso. inversion H'; subst; [congruence|contradiction].
Qed.

Lemma elem_of_union_index (a b : list Z) (t : Z) :
  t ∈ union_index a b <-> t ∈ a \/ t ∈ b.
Proof.
  unfold union_index.
  rewrite (merge_sort_Permutation Z.le), elem_of_remove_dups, elem_of_app.
  reflexivity.
Qed.

(** A binary operation between two series has a value at every label of
    either side: the operation on the two values, NaN standing for a value
    that is not there. *)
Lemma series_binop_loc (op : float -> float -> float) (a b : Series) (t : Z) :
  loc (series_binop op a b) t
  = if decide (t ∈ index a \/ t ∈ index b)
    then Some (op (default NaN (loc a t)) (default NaN (loc b t)))
    else None.
Proof.
  unfold series_binop. destruct (decide (index a = index b)) as [E|E].
  - rewrite (loc_zip op a b t E).
    destruct (decide (t ∈ index a \/ t ∈ index b)) as [H|H].
    + assert (t ∈ index a /\ t ∈ index b) as [Ha Hb].
      { rewrite <- E in *. tauto. }
      apply loc_index in Ha as [x ->]. apply loc_index in Hb as [y ->].
      reflexivity.
    + assert (loc a t = None) as ->; [|reflexivity].
      apply loc_None. tauto.
  - rewrite (loc_labels (fun t => op (default NaN (loc a t)) (default NaN (loc b t)))).
    destruct (decide (t ∈ union_index (index a) (index b))) as [H|H];
      destruct (decide (t ∈ index a \/ t ∈ index b)) as [H'|H']; try reflexivity;
      rewrite elem_of_union_index in H; contradiction.
Qed.

Lemma series_binop_index (op : float -> float -> float) (a b : Series) (t : Z) :
  t ∈ index (series_binop op a b) <-> t ∈ index a \/ t ∈ index b.
Proof.
  rewrite loc_index, series_binop_loc.
  destruct (decide (t ∈ index a \/ t ∈ index b)) as [H|H].
  - split; [intros _; exact H|eauto].
  - split; [intros [x Hx]; discriminate Hx|contradiction].
Qed.

Lemma rolling_Ok (window min_periods : Z) kernel (s r : Series) :
  rolling window min_periods kernel s = Ok r ->
  0 <= window
  /\ r = imap (fun i p => (fst p, kernel min_periods (observations window (values s) i))) s.
Proof.
  unfold rolling. destruct (window <? 0) eqn:E; [discriminate|].
  apply Z.ltb_ge in E. now intros [= <-].
Qed.

(** What the call returns when the hedge ratio is a number. *)
Lemma spread_and_zscore_Ok (Qsqrt : Q -> Q) (px_x px_y : Series) (window : Z)
    (b : float) (spread z : Series) :
  compute_hedge_ratio px_x px_y = Ok b -> isnan b = false ->
  compute_spread_and_zscore Qsqrt px_x px_y window = Ok (spread, z) ->
  spread = series_sub px_x (series_scale b px_y)
  /\ exists roll_mean roll_std,
       rolling_mean window (window / 2) spread = Ok roll_mean
       /\ rolling_std Qsqrt window (window / 2) spread = Ok roll_std
       /\ z = zscore spread roll_mean roll_std.
Proof.
  intros Hb Hn. unfold compute_spread_and_zscore. rewrite Hb.
  unfold mbind, result_bind. simpl. rewrite Hn.
  destruct (rolling_mean window (window / 2) _) as [rm|e] eqn:Em; [|discriminate].
  simpl.
  destruct (rolling_std Qsqrt window (window / 2) _) as [rs|e] eqn:Es; [|discriminate].
  simpl. intros [= <- <-]. split; [reflexivity|]. now exists rm, rs.
Qed.

(** C5 (as the code has it): when the hedge ratio [b] is a number, the
    spread is [px_x - b * px_y] as pandas subtracts series: it has an entry at
    every timestamp of either input (the union, not the inner join); at a
    timestamp both have, the entry is X[t] - b * Y[t]; at a timestamp only one
    has, the entry is NaN. *)
Theorem spread_over_union (Qsqrt : Q -> Q) (px_x px_y : Series) (window : Z)
    (b : float) (spread z : Series) :
  NoDup (index px_x) -> NoDup (index px_y) ->
  compute_hedge_ratio px_x px_y = Ok b -> isnan b = false ->
  compute_spread_and_zscore Qsqrt px_x px_y window = Ok (spread, z) ->
  (forall t, t ∈ index spread <-> t ∈ index px_x \/ t ∈ index px_y)
  /\ (forall t x y, loc px_x t = Some x -> loc px_y t = Some y ->
                    loc spread t = Some (fsub x (fmul b y)))
  /\ (forall t, t ∈ index px_x \/ t ∈ index px_y ->
                loc px_x t = None \/ loc px_y t = None ->
                loc spread t = Some NaN).
Proof.
  intros _ _ Hb Hn H.
  destruct (spread_and_zscore_Ok _ _ _ _ _ _ _ Hb Hn H) as (-> & _).
  unfold series_sub. repeat split.
  - intros Ht. apply series_binop_index in Ht. now rewrite index_scale in Ht.
  - intros Ht. apply series_binop_index. now rewrite index_scale.
  - intros t x y Hx Hy. rewrite series_binop_loc, index_scale, loc_scale, Hx, Hy.
    simpl. destruct (decide _) as [_|Hd]; [reflexivity|].
    exfalso. apply Hd. left. apply loc_index. rewrite Hx. eauto.
  - intros t Ht Hm. rewrite series_binop_loc, index_scale, loc_scale.
    destruct (decide _) as [_|Hd]; [|contradiction].
    f_equal. destruct Hm as [-> | ->]; simpl.
    + reflexivity.
    + unfold fsub. simpl. now destruct (default NaN (loc px_x t)).
Qed.

Lemma NoDup_ten_x : NoDup (index px_x_example).
Proof. apply (bool_decide_unpack _). vm_compute. exact I. Qed.

Lemma NoDup_ten_y : NoDup (index px_y_example).
Proof. apply (bool_decide_unpack _). vm_compute. exact I. Qed.

Lemma spread_over_union_witness :
  exists spread z,
    compute_spread_and_zscore Qsqrt_floor px_x_example px_y_example 4 = Ok (spread, z)
    /\ (forall t, t ∈ index spread <-> t ∈ index px_x_example \/ t ∈ index px_y_example)
    /\ (forall t x y, loc px_x_example t = Some x -> loc px_y_example t = Some y ->
                      loc spread t = Some (fsub x (fmul (q 9) y)))
    /\ (forall t, t ∈ index px_x_example \/ t ∈ index px_y_example ->
                  loc px_x_example t = None \/ loc px_y_example t = None ->
                  loc spread t = Some NaN).
Proof.
  eexists _, _. split; [vm_compute; reflexivity|].
  eapply (spread_over_union Qsqrt_floor px_x_example px_y_example 4 (q 9)).
  - exact NoDup_ten_x.
  - exact NoDup_ten_y.
  - vm_compute. reflexivity.
  - reflexivity.
  - vm_compute. reflexivity.
Defined.

(** C5, refuted as stated: timestamp 10 is in X only and timestamp 11 in Y
    only; neither is dropped, the spread has a NaN entry at both. *)
Lemma spread_keeps_unmatched_timestamps :
  exists spread z,
    compute_spread_and_zscore Qsqrt_floor px_x_example px_y_example 4 = Ok (spread, z)
    /\ index spread = [0; 1; 2; 3; 4; 5; 6; 7; 8; 9; 10; 11]
    /\ map fst (inner_join px_x_example px_y_example) = [0; 1; 2; 3; 4; 5; 6; 7; 8; 9]
    /\ loc px_y_example 10 = None /\ loc spread 10 = Some NaN
    /\ loc px_x_example 11 = None /\ loc spread 11 = Some NaN.
Proof.
  eexists _, _. split; [vm_compute; reflexivity|].
  repeat split; vm_compute; reflexivity.
Qed.

(** *** Rational arithmetic in lowest terms *)

Lemma Qadd_correct (a b : Q) : (Qadd a b == a + b)%Q.
Proof. apply Qred_correct. Qed.

Lemma Qsub_correct (a b : Q) : (Qsub a b == a - b)%Q.
Proof. apply Qred_correct. Qed.

Lemma Qmul_correct (a b : Q) : (Qmul a b == a * b)%Q.
Proof. apply Qred_correct. Qed.

Lemma Qquo_correct (a b : Q) : (Qquo a b == a / b)%Q.
Proof. apply Qred_correct. Qed.

Lemma Qzerob_iff (a : Q) : Qzerob a = true <-> (a == 0)%Q.
Proof.
  unfold Qzerob, Qeq. simpl. rewrite Z.eqb_eq. lia.
Qed.

Lemma Qsq_nonneg (a : Q) : (0 <= Qsq a)%Q.
Proof.
  unfold Qsq. rewrite Qmul_correct.
  destruct (Qlt_le_dec a 0) as [H|H].
  - assert (a * a == (- a) * (- a))%Q as -> by ring.
    apply Qmult_le_0_compat; apply (Qopp_le_compat a 0), Qlt_le_weak, H.
  - now apply Qmult_le_0_compat.
Qed.

Lemma Qsq_zero (a : Q) : (Qsq a == 0)%Q -> (a == 0)%Q.
Proof.
  unfold Qsq. rewrite Qmul_correct. intros H.
  now destruct (Qmult_integral _ _ H).
Qed.

Lemma Qsum_nonneg (l : list Q) :
  Forall (fun x => (0 <= x)%Q) l -> (0 <= Qsum l)%Q.
Proof.
  induction 1 as [|x l Hx _ IH]; simpl; [apply Qle_refl|].
  rewrite Qadd_correct.
  assert (0 == 0 + 0)%Q as -> by ring. now apply Qplus_le_compat.
Qed.

Lemma Qsum_zero (l : list Q) :
  Forall (fun x => (0 <= x)%Q) l -> (Qsum l == 0)%Q ->
  Forall (fun x => (x == 0)%Q) l.
Proof.
  induction 1 as [|x l Hx Hl IH]; simpl; [constructor|].
  rewrite Qadd_correct. intros H.
  pose proof (Qsum_nonneg l Hl) as Hs.
  assert (x == 0)%Q as Hx0.
  { apply Qle_antisym; [|exact Hx].
    rewrite <- H. assert (x == x + 0)%Q as E by ring. rewrite E at 1.
    apply Qplus_le_compat; [apply Qle_refl|exact Hs]. }
  constructor; [exact Hx0|]. apply IH.
  rewrite Hx0 in H. now rewrite Qplus_0_l in H.
Qed.

(** A zero sample variance: every observation equals the mean. *)
Lemma Qssd_zero (obs : list Q) (x : Q) :
  (Qssd obs == 0)%Q -> In x obs -> (x == Qmean obs)%Q.
Proof.
  unfold Qssd. intros H Hx.
  assert (Forall (fun y => (0 <= y)%Q) (map (fun x => Qsq (Qsub x (Qmean obs))) obs)) as Hnn.
  { apply List.Forall_forall. intros y Hy. apply in_map_iff in Hy as (u & <- & _).
    apply Qsq_nonneg. }
  pose proof (Qsum_zero _ Hnn H) as Hz.
  rewrite List.Forall_forall in Hz.
  specialize (Hz _ (in_map (fun x => Qsq (Qsub x (Qmean obs))) _ _ Hx)).
  simpl in Hz. apply Qsq_zero in Hz. rewrite Qsub_correct in Hz.
  assert (x == (x - Qmean obs) + Qmean obs)%Q as -> by ring.
  rewrite Hz. ring.
Qed.

Lemma Qssd_nonneg (obs : list Q) : (0 <= Qssd obs)%Q.
Proof.
  apply Qsum_nonneg, List.Forall_forall. intros y Hy.
  apply in_map_iff in Hy as (u & <- & _). apply Qsq_nonneg.
Qed.

(** *** Rolling windows *)

Lemma values_zip (op : float -> float -> float) (a b : Series) :
  values (zip_with (fun p r => (fst p, op (snd p) (snd r))) a b)
  = zip_with op (values a) (values b).
Proof.
  revert b. induction a as [|p a IH]; intros [|r b]; simpl; try reflexivity.
  now rewrite IH.
Qed.

Lemma index_zip (op : float -> float -> float) (a b : Series) :
  index a = index b ->
  index (zip_with (fun p r => (fst p, op (snd p) (snd r))) a b) = index a.
Proof.
  revert b. induction a as [|p a IH]; intros [|r b] H; simpl in *;
    try discriminate; [reflexivity|].
  injection H as _ H. now rewrite IH.
Qed.

Lemma series_binop_same_index (op : float -> float -> float) (a b : Series) :
  index a = index b ->
  index (series_binop op a b) = index a
  /\ values (series_binop op a b) = zip_with op (values a) (values b).
Proof.
  intros E. unfold series_binop. rewrite decide_True by exact E.
  split; [now apply index_zip|apply values_zip].
Qed.

Lemma index_imap (g : nat -> Z * float -> float) (s : Series) :
  index (imap (fun i p => (fst p, g i p)) s) = index s.
Proof.
  revert g. induction s as [|p s IH]; intros g; simpl; [reflexivity|].
  f_equal. apply (IH (fun i => g (S i))).
Qed.

Lemma values_imap_lookup (g : nat -> float) (s : Series) (i : nat) :
  values (imap (fun i p => (fst p, g i)) s) !! i
  = (fun _ => g i) <$> s !! i.
Proof.
  unfold values. change (map snd ?l) with (snd <$> l).
  rewrite list_lookup_fmap, list_lookup_imap.
  unfold Series in *. now destruct (s !! i).
Qed.

Lemma rolling_index window min_periods kernel (s r : Series) :
  rolling window min_periods kernel s = Ok r -> index r = index s.
Proof.
  intros H. apply rolling_Ok in H as [_ ->].
  apply (index_imap (fun i _ => kernel min_periods (observations window (values s) i))).
Qed.

Lemma rolling_lookup window min_periods kernel (s r : Series) (i : nat) :
  rolling window min_periods kernel s = Ok r ->
  values r !! i
  = (fun _ => kernel min_periods (observations window (values s) i)) <$> s !! i.
Proof.
  intros H. apply rolling_Ok in H as [_ ->].
  apply (values_imap_lookup (fun i => kernel min_periods (observations window (values s) i))).
Qed.


Lemma length_finite_vals (l : list float) :
  (length (finite_vals l) <= length l)%nat.
Proof.
  induction l as [|x l IH]; simpl; [lia|].
  unfold finite_vals in *. simpl. destruct (finite_val x); simpl; lia.
Qed.

(** A window holds at most [window] positions, and at most the [i + 1]
    positions seen so far. *)
Lemma observations_bound (window : Z) (v : list float) (i : nat) :
  0 <= window ->
  Z.of_nat (length (observations window v i)) <= Z.of_nat i + 1
  /\ Z.of_nat (length (observations window v i)) <= window.
Proof.
  intros Hw. unfold observations, window_at.
  pose proof (length_finite_vals (drop (S i - Z.to_nat window) (take (S i) v))) as H.
  rewrite length_drop, length_take in H. lia.
Qed.

(** The value at position [i] is in the window that ends at [i]. *)
Lemma current_in_window (window : Z) (v : list float) (i : nat) (x : float) :
  0 < window -> v !! i = Some x -> x ∈ window_at window v i.
Proof.
  intros Hw Hx. unfold window_at.
  apply list_elem_of_lookup.
  exists (i - (S i - Z.to_nat window))%nat.
  rewrite lookup_drop, lookup_take_lt by lia.
  replace (S i - Z.to_nat window + (i - (S i - Z.to_nat window)))%nat with i by lia.
  exact Hx.
Qed.

Lemma finite_in_observations (window : Z) (v : list float) (i : nat) (x : Q) :
  0 < window -> v !! i = Some (Fin x) -> In x (observations window v i).
Proof.
  intros Hw Hx. apply list_elem_of_In. unfold observations, finite_vals.
  apply list_elem_of_omap. exists (Fin x). split; [|reflexivity].
  now apply current_in_window.
Qed.

Lemma zscore_lookup (spread roll_mean roll_std : Series) (i : nat) (v m s : float) :
  index roll_mean = index spread -> index roll_std = index spread ->
  values spread !! i = Some v -> values roll_mean !! i = Some m ->
  values roll_std !! i = Some s ->
  values (series_div (series_sub spread roll_mean) roll_std) !! i
  = Some (fdiv (fsub v m) s).
Proof.
  intros Em Es Hv Hm Hs.
  destruct (series_binop_same_index fsub spread roll_mean (eq_sym Em)) as [Ei Ev].
  destruct (series_binop_same_index fdiv (series_sub spread roll_mean) roll_std) as [_ Ez].
  { unfold series_sub. now rewrite Ei, Es. }
  unfold series_div, series_sub in *. rewrite Ez, Ev.
  rewrite !lookup_zip_with, Hv, Hm, Hs. reflexivity.
Qed.

Section ZeroStd.
Variable Qsqrt : Q -> Q.
Hypothesis Qsqrt_pos : forall v : Q, (0 < v)%Q -> ~ (Qsqrt v == 0)%Q.

(** In exact arithmetic a rolling standard deviation of zero means at least
    two observations, all equal to their mean, which is the rolling mean. *)
Lemma roll_std_zero (minp : Z) (obs : list Q) (s : Q) :
  roll_std_at Qsqrt minp obs = Fin s -> (s == 0)%Q ->
  1 < Z.of_nat (length obs)
  /\ roll_mean_at minp obs = Fin (Qmean obs)
  /\ forall x, In x obs -> (x == Qmean obs)%Q.
Proof.
  unfold roll_std_at, roll_var_at, roll_mean_at.
  destruct (minp <=? Z.of_nat (length obs)) eqn:E1; simpl; [|discriminate].
  destruct (1 <? Z.of_nat (length obs)) eqn:E2; simpl; [|discriminate].
  apply Z.ltb_lt in E2.
  assert ((0 <? Z.of_nat (length obs)) = true) as -> by (apply Z.ltb_lt; lia).
  intros [= <-] Hs. split; [exact E2|]. split; [reflexivity|].
  intros x Hx. apply Qssd_zero; [|exact Hx].
  destruct (Qeq_dec (Qssd obs) 0) as [H0|Hne]; [exact H0|].
  exfalso. apply (Qsqrt_pos _) in Hs; [contradiction|].
  rewrite Qquo_correct. apply Qlt_shift_div_l.
  - change 0%Q with (inject_Z 0). rewrite <- Zlt_Qlt. lia.
  - rewrite Qmult_0_l. pose proof (Qssd_nonneg obs) as Hnn.
    apply Qle_lteq in Hnn as [H|H]; [exact H|].
    symmetry in H. contradiction.
Qed.

End ZeroStd.

(** [spread_zscore] is the second half of [compute_spread_and_zscore]. *)
Lemma compute_spread_and_zscore_eq (Qsqrt : Q -> Q) (px_x px_y : Series)
    (window : Z) :
  compute_spread_and_zscore Qsqrt px_x px_y window
  = (beta ← compute_hedge_ratio px_x px_y;
     if isnan beta then Ok ([], [])
     else
       z ← spread_zscore Qsqrt (series_sub px_x (series_scale beta px_y)) window;
       Ok (series_sub px_x (series_scale beta px_y), z)).
Proof.
  unfold compute_spread_and_zscore, spread_zscore.
  destruct (compute_hedge_ratio px_x px_y) as [b|e]; [|reflexivity].
  unfold mbind, result_bind. simpl. destruct (isnan b); [reflexivity|].
  destruct (rolling_mean window (window / 2) _); [|reflexivity]. simpl.
  now destruct (rolling_std Qsqrt window (window / 2) _).
Qed.







(** The z-score scenario: a constant spread over a full window has rolling
    standard deviation zero and an undefined z-score; the positions before
    [window // 2] observations are there have no rolling statistics at all. *)
Example zscore_constant_spread :
  rolling_mean 4 (4 / 2) px_seven
  = Ok [(0, NaN); (1, q 7); (2, q 7); (3, q 7)]
  /\ rolling_std Qsqrt_floor 4 (4 / 2) px_seven
     = Ok [(0, NaN); (1, q 0); (2, q 0); (3, q 0)]
  /\ zscore px_seven [(0, NaN); (1, q 7); (2, q 7); (3, q 7)]
                     [(0, NaN); (1, q 0); (2, q 0); (3, q 0)]
     = [(0, NaN); (1, NaN); (2, NaN); (3, NaN)].
Proof. repeat split; vm_compute; reflexivity. Qed.

(** An infinite spread value is not an observation of its window, but it is
    the numerator of its own z-score: over a zero deviation that is an
    infinity, not NaN. *)
Example zscore_infinite_spread :
  zscore [(0, q 7); (1, q 7); (2, Inf false)]
         [(0, NaN); (1, q 7); (2, q 7)]
         [(0, NaN); (1, q 0); (2, q 0)]
  = [(0, NaN); (1, NaN); (2, Inf false)]
  /\ rolling_std Qsqrt_floor 4 (4 / 2) [(0, q 7); (1, q 7); (2, Inf false)]
     = Ok [(0, NaN); (1, q 0); (2, q 0)].
Proof. repeat split; vm_compute; reflexivity. Qed.

(** *** The fitted slope *)

Lemma Qlen_cons {A} (x : A) (l : list A) : (Qlen (x :: l) == Qlen l + 1)%Q.
Proof.
  unfold Qlen. simpl length. rewrite Nat2Z.inj_succ, <- Z.add_1_r, inject_Z_plus.
  reflexivity.
Qed.

Lemma fsum_finite (w y : list Q) :
  fsum (zip_with fmul (map Fin w) (map Fin y)) = Fin (Qsum (zip_with Qmul w y)).
Proof.
  revert y. induction w as [|a w IH]; intros [|b y]; simpl; try reflexivity.
  now rewrite IH.
Qed.

Lemma finite_vals_Fin (l : list Q) : finite_vals (map Fin l) = l.
Proof. induction l as [|x l IH]; simpl; [reflexivity|]. unfold finite_vals in *. simpl. now rewrite IH. Qed.

Lemma all_finite_Fin (l : list Q) : all_finite (map Fin l) = true.
Proof. induction l as [|x l IH]; simpl; [reflexivity|exact IH]. Qed.

(** Moments of the points. *)
Lemma sse_moments (d : list (Q * Q)) (a b : Q) :
  (sse d a b ==
   Qsum (map (fun p => snd p * snd p) d)
   - 2 * a * Qsum (map snd d)
   - 2 * b * Qsum (map (fun p => fst p * snd p) d)
   + Qlen d * a * a
   + 2 * a * b * Qsum (map fst d)
   + b * b * Qsum (map (fun p => fst p * fst p) d))%Q.
Proof.
  unfold sse. induction d as [|[x y] d IH].
  - simpl. unfold Qlen. simpl. ring.
  - rewrite Qlen_cons. simpl. rewrite !Qadd_correct, IH.
    unfold Qsq. rewrite Qmul_correct. ring.
Qed.

Lemma ssd_moments (xs : list Q) (c : Q) :
  (Qsum (map (fun x => Qsq (Qsub x c)) xs)
   == Qsum (map (fun x => x * x) xs) - 2 * c * Qsum xs + Qlen xs * c * c)%Q.
Proof.
  induction xs as [|x xs IH].
  - simpl. unfold Qlen. simpl. ring.
  - rewrite Qlen_cons. simpl. rewrite !Qadd_correct, IH.
    unfold Qsq. rewrite Qmul_correct, Qsub_correct. ring.
Qed.

Lemma slope_moments (d : list (Q * Q)) (c k : Q) :
  ~ (k == 0)%Q ->
  (Qsum (zip_with Qmul (map (fun v => Qquo (Qsub v c) k) (map fst d)) (map snd d))
   == (Qsum (map (fun p => fst p * snd p) d) - c * Qsum (map snd d)) / k)%Q.
Proof.
  intros Hk. induction d as [|[x y] d IH].
  - simpl. field. exact Hk.
  - simpl. rewrite !Qadd_correct, IH, Qmul_correct, Qquo_correct, Qsub_correct.
    field. exact Hk.
Qed.

Lemma squares_moments (d : list (Q * Q)) (u v : Q) :
  (Qsum (map (fun p => Qsq (u + v * fst p)) d)
   == Qlen d * u * u + 2 * u * v * Qsum (map fst d)
      + v * v * Qsum (map (fun p => fst p * fst p) d))%Q.
Proof.
  induction d as [|[x y] d IH].
  - simpl. unfold Qlen. simpl. ring.
  - rewrite Qlen_cons. simpl. rewrite !Qadd_correct, IH.
    unfold Qsq. rewrite Qmul_correct. ring.
Qed.

Lemma squares_nonneg (d : list (Q * Q)) (u v : Q) :
  (0 <= Qsum (map (fun p => Qsq (u + v * fst p)) d))%Q.
Proof.
  apply Qsum_nonneg, List.Forall_forall. intros z Hz.
  apply in_map_iff in Hz as (p & <- & _). apply Qsq_nonneg.
Qed.

Lemma map_map_fst_xx (d : list (Q * Q)) :
  map (fun x => x * x)%Q (map fst d) = map (fun p => fst p * fst p)%Q d.
Proof. now rewrite map_map. Qed.

(** The normal equations make the line a least-squares fit. *)
Lemma normal_equations_optimal (n sx sy sxx sxy syy a b a' b' : Q) :
  (n * a + b * sx == sy)%Q -> (a * sx + b * sxx == sxy)%Q ->
  (0 <= n * (a' - a) * (a' - a) + 2 * (a' - a) * (b' - b) * sx
        + (b' - b) * (b' - b) * sxx)%Q ->
  (syy - 2 * a * sy - 2 * b * sxy + n * a * a + 2 * a * b * sx + b * b * sxx
   <= syy - 2 * a' * sy - 2 * b' * sxy + n * a' * a' + 2 * a' * b' * sx
      + b' * b' * sxx)%Q.
Proof.
  intros <- <- H.
  apply Qle_minus_iff. apply Qle_minus_iff in H.
  eapply Qle_trans; [exact H|]. apply Qle_lteq. right. ring.
Qed.

Lemma Qsum_const (xs : list Q) (c : Q) :
  Forall (fun v => (v == c)%Q) xs ->
  (Qsum xs == Qlen xs * c)%Q /\ (Qsum (map (fun x => x * x) xs) == Qlen xs * c * c)%Q.
Proof.
  induction 1 as [|x xs Hx _ [IH1 IH2]].
  - simpl. unfold Qlen. simpl. split; ring.
  - rewrite Qlen_cons. simpl. rewrite !Qadd_correct, IH1, IH2, Hx. split; ring.
Qed.

Lemma Qlen_pos {A} (l : list A) : l <> [] -> ~ (Qlen l == 0)%Q.
Proof.
  intros Hl H. destruct l as [|x l]; [congruence|].
  unfold Qlen, Qeq in H. simpl in H. lia.
Qed.

Lemma Qmean_correct (xs : list Q) : (Qmean xs == Qsum xs / Qlen xs)%Q.
Proof. unfold Qmean. now rewrite Qquo_correct. Qed.

Lemma Qssd_moments (xs : list Q) :
  (Qssd xs == Qsum (map (fun x => x * x) xs) - 2 * Qmean xs * Qsum xs
              + Qlen xs * Qmean xs * Qmean xs)%Q.
Proof. apply ssd_moments. Qed.

(** A constant regressor has no spread around its mean. *)
Lemma is_nonzero_const_ssd (xs : list Q) :
  is_nonzero_const xs = true -> (Qssd xs == 0)%Q.
Proof.
  unfold is_nonzero_const. destruct xs as [|c xs']; [discriminate|].
  set (xs := c :: xs'). intros H. apply andb_true_iff in H as [H _].
  assert (Forall (fun v => (v == c)%Q) xs) as Hc.
  { apply List.Forall_forall. intros v Hv.
    rewrite forallb_forall in H. apply Qeq_bool_iff. now apply H. }
  destruct (Qsum_const xs c Hc) as [E1 E2].
  assert (~ (Qlen xs == 0)%Q) as Hn by (apply Qlen_pos; discriminate).
  rewrite Qssd_moments, Qmean_correct, E1, E2. field. exact Hn.
Qed.

(** Where the fit goes through, the slope is a least-squares slope: with the
    intercept [mean y - b * mean x], no line has a smaller sum of squared
    residuals on the points. *)
Lemma ols_slope_least_squares (d : list (Q * Q)) :
  ~ (Qssd (map fst d) == 0)%Q ->
  exists b,
    ols_slope (map Fin (map snd d)) (map Fin (map fst d)) = Ok (Fin b)
    /\ forall a' b',
         (sse d (Qmean (map snd d) - b * Qmean (map fst d)) b <= sse d a' b')%Q.
Proof.
  intros Hk. unfold ols_slope.
  rewrite all_finite_Fin, finite_vals_Fin.
  destruct (is_nonzero_const (map fst d)) eqn:Ec.
  { apply is_nonzero_const_ssd in Ec. contradiction. }
  unfold slope_weights.
  destruct (Qzerob (Qssd (map fst d))) eqn:Ez.
  { apply Qzerob_iff in Ez. contradiction. }
  rewrite fsum_finite. eexists. split; [reflexivity|].
  intros a' b'.
  set (b := Qsum _).
  assert (b == (Qsum (map (fun p => fst p * snd p) d)
                - Qmean (map fst d) * Qsum (map snd d)) / Qssd (map fst d))%Q as Hb.
  { unfold b. now apply slope_moments. }
  assert (d <> []) as Hd.
  { intros ->. apply Hk. reflexivity. }
  assert (~ (Qlen d == 0)%Q) as Hn by now apply Qlen_pos.
  pose proof (Qssd_moments (map fst d)) as Hs.
  pose proof (Qmean_correct (map fst d)) as Hmx.
  pose proof (Qmean_correct (map snd d)) as Hmy.
  assert (Qlen (map fst d) = Qlen d) as Lx by (unfold Qlen; now rewrite length_map).
  assert (Qlen (map snd d) = Qlen d) as Ly by (unfold Qlen; now rewrite length_map).
  rewrite Lx in *. rewrite Ly in *. rewrite map_map_fst_xx in Hs.
  rewrite !sse_moments.
  revert Hb Hs Hmx Hmy Hk.
  generalize (Qssd (map fst d)) as k.
  generalize (Qmean (map fst d)) as mx. generalize (Qmean (map snd d)) as my.
  generalize b as b0. clear b.
  pose proof (squares_moments d) as Hsq. pose proof (squares_nonneg d) as Hnn.
  revert Hsq Hnn Hn.
  generalize (Qsum (map (fun p => snd p * snd p)%Q d)) as syy.
  generalize (Qsum (map (fun p => fst p * snd p)%Q d)) as sxy.
  generalize (Qsum (map (fun p => fst p * fst p)%Q d)) as sxx.
  generalize (Qsum (map snd d)) as sy. generalize (Qsum (map fst d)) as sx.
  generalize (Qlen d) as n.
  intros n sx sy sxx sxy syy Hsq Hnn Hn b my mx k Hb Hs Hmx Hmy Hk.
  apply normal_equations_optimal.
  - rewrite Hmy, Hmx. field. exact Hn.
  - assert (b * k == sxy - mx * sy)%Q as Hbk by (rewrite Hb; field; exact Hk).
    assert (sxx == k + sx * sx / n)%Q as Hxx by (rewrite Hs, Hmx; field; exact Hn).
    rewrite Hxx, Hmy.
    assert ((sy / n - b * mx) * sx + b * (k + sx * sx / n)
            == sy * sx / n - b * mx * sx + b * k + b * sx * sx / n)%Q as ->
      by (field; exact Hn).
    rewrite Hbk, Hmx. field. exact Hn.
  - rewrite <- Hsq. apply Hnn.
Qed.

(** X1: on ten or more aligned rows with finite values whose regressor is not
    constant, [compute_hedge_ratio] returns the least-squares slope: with the
    matching intercept it minimises the sum of squared residuals over all
    lines. [d] lists the aligned rows as (regressor, dependent) = (Y value, X
    value). *)
Lemma hedge_ratio_least_squares (px_x px_y : Series) (d : list (Q * Q)) :
  map snd (aligned px_x px_y) = map (fun p => (Fin (snd p), Fin (fst p))) d ->
  10 <= Z.of_nat (length d) ->
  ~ (Qssd (map fst d) == 0)%Q ->
  exists b,
    compute_hedge_ratio px_x px_y = Ok (Fin b)
    /\ forall a' b',
         (sse d (Qmean (map snd d) - b * Qmean (map fst d)) b <= sse d a' b')%Q.
Proof.
  intros Hal Hlen Hk. unfold compute_hedge_ratio.
  assert (length (aligned px_x px_y) = length d) as Hl.
  { rewrite <- (length_map snd), Hal. apply length_map. }
  rewrite Hl. destruct (Z.of_nat (length d) <? 10) eqn:E.
  { apply Z.ltb_lt in E. lia. }
  assert (map (fun r => fst (snd r)) (aligned px_x px_y) = map Fin (map snd d)) as ->.
  { rewrite <- (map_map snd fst), Hal, !map_map. reflexivity. }
  assert (map (fun r => snd (snd r)) (aligned px_x px_y) = map Fin (map fst d)) as ->.
  { rewrite <- (map_map snd snd), Hal, !map_map. reflexivity. }
  now apply ols_slope_least_squares.
Qed.

Lemma hedge_ratio_least_squares_witness :
  exists b,
    compute_hedge_ratio px_x_example px_y_example = Ok (Fin b)
    /\ forall a' b',
         (sse points_example
              (Qmean (map snd points_example) - b * Qmean (map fst points_example)) b
          <= sse points_example a' b')%Q.
Proof.
  apply hedge_ratio_least_squares.
  - vm_compute. reflexivity.
  - vm_compute. discriminate.
  - intros H. vm_compute in H. discriminate H.
Defined.

(** ** More on the tick store and the bar aggregator *)

Lemma width_of_pos (timeframe : string) : 0 < width_of timeframe.
Proof.
  unfold width_of, minute.
  destruct (decide (timeframe = "1s")); [lia|].
  destruct (decide (timeframe = "5m")); lia.
Qed.

Lemma floor_ts_mul (w t : Z) : 0 < w -> floor_ts w t = w * (t / w).
Proof. intros Hw. unfold floor_ts. pose proof (Z.div_mod t w). lia. Qed.

Lemma floor_ts_aligned (w t : Z) : 0 < w -> floor_ts w t mod w = 0.
Proof.
  intros Hw. rewrite floor_ts_mul by exact Hw.
  rewrite Z.mul_comm. apply Z.mod_mul. lia.
Qed.

Lemma floor_ts_bounds (w t : Z) :
  0 < w -> floor_ts w t <= t < floor_ts w t + w.
Proof. intros Hw. unfold floor_ts. pose proof (Z.mod_pos_bound t w Hw). lia. Qed.

Lemma persist_bars_imap (timeframe : string) (rows : list BarRow.t) :
  forall tbl,
    persist_bars timeframe tbl rows
    = tbl ++ imap (fun i row =>
                     bar_of_row (next_id tbl + Z.of_nat i) timeframe row) rows.
Proof.
  unfold persist_bars. induction rows as [|r rows IH]; intros tbl.
  - simpl. now rewrite app_nil_r.
  - cbn [fold_left]. rewrite IH, <- app_assoc. cbn [imap app].
    rewrite Z.add_0_r. do 2 f_equal.
    apply imap_ext. intros i row _. cbn. f_equal.
    unfold next_id. rewrite length_app. cbn [length]. lia.
Qed.

(** X2: what a call persists is the frame it returns.  A call that returns
    leaves the tick table as it is, keeps the rows the bar table had, and
    appends one row per returned bar, in the order of the frame, each
    holding the bar and the timeframe as it was given. *)
Theorem resample_persists_frame (db : DB) (symbols : list string)
    (timeframe : string) (minutes_back now : Z) (bars_df : list BarRow.t)
    (db' : DB) :
  resample_ticks_to_bars db symbols timeframe minutes_back now = Ok (bars_df, db') ->
  ticks db' = ticks db
  /\ exists added,
       bars db' = bars db ++ added
       /\ map row_of_bar added = bars_df
       /\ map Bar.timeframe added = map (fun _ => timeframe) bars_df.
Proof.
  rewrite resample_ticks_to_bars_eq. intros [= <- <-].
  split; [reflexivity|]. cbn [bars]. rewrite persist_bars_imap.
  eexists. split; [reflexivity|].
  change (@map ?A ?B) with (@fmap list _ A B).
  rewrite !fmap_imap. split.
  - rewrite <- (list_fmap_id (resampled _ _ _ _ _)) at 2.
    rewrite <- imap_const. apply imap_ext. intros k row _. now destruct row.
  - rewrite <- imap_const. apply imap_ext. reflexivity.
Qed.

Lemma resample_persists_frame_witness :
  ticks (mkDB (ticks db_example)
              (persist_bars "1m" (bars db_example) [bar_10_00; bar_10_05]))
  = ticks db_example
  /\ exists added,
       bars (mkDB (ticks db_example)
                  (persist_bars "1m" (bars db_example) [bar_10_00; bar_10_05]))
       = bars db_example ++ added
       /\ map row_of_bar added = [bar_10_00; bar_10_05]
       /\ map Bar.timeframe added = map (fun _ => "1m") [bar_10_00; bar_10_05].
Proof.
  apply (resample_persists_frame db_example ["A"] "1m" 60 now_example).
  vm_compute. reflexivity.
Defined.

(** X3: every returned bar has its prices in order: low <= open <= high and
    low <= close <= high, whatever the ticks (NaN prices included). *)
Theorem bar_prices_ordered (db : DB) (symbols : list string)
    (timeframe : string) (minutes_back now : Z) (bars_df : list BarRow.t)
    (db' : DB) (bar : BarRow.t) :
  resample_ticks_to_bars db symbols timeframe minutes_back now = Ok (bars_df, db') ->
  bar ∈ bars_df ->
  fleb (BarRow.low bar) (BarRow.open bar) = true
  /\ fleb (BarRow.open bar) (BarRow.high bar) = true
  /\ fleb (BarRow.low bar) (BarRow.close bar) = true
  /\ fleb (BarRow.close bar) (BarRow.high bar) = true
  /\ fleb (BarRow.low bar) (BarRow.high bar) = true.
Proof.
  rewrite resample_ticks_to_bars_eq. intros [= <- _] Hbar.
  apply resampled_inv in Hbar as (_ & Hn & Hbar). simpl in Hbar.
  set (P := map TickRow.price _) in Hbar.
  unfold ohlc_notna in Hn. rewrite !andb_true_iff in Hn.
  destruct Hn as [[[Ho Hh] Hl] Hc].
  rewrite Hbar in Ho, Hh, Hl, Hc |- *. simpl in *.
  pose proof (agg_first_in P Ho) as Io.
  assert (In (agg_last P) P) as Ic.
  { apply in_rev. now apply agg_first_in. }
  pose proof (agg_max_in P Hh) as Ih.
  repeat split.
  - now apply agg_min_lb.
  - now apply agg_max_ub.
  - now apply agg_min_lb.
  - now apply agg_max_ub.
  - now apply agg_min_lb.
Qed.

Lemma bar_prices_ordered_witness :
  fleb (BarRow.low bar_10_00) (BarRow.open bar_10_00) = true
  /\ fleb (BarRow.open bar_10_00) (BarRow.high bar_10_00) = true
  /\ fleb (BarRow.low bar_10_00) (BarRow.close bar_10_00) = true
  /\ fleb (BarRow.close bar_10_00) (BarRow.high bar_10_00) = true
  /\ fleb (BarRow.low bar_10_00) (BarRow.high bar_10_00) = true.
Proof.
  eapply (bar_prices_ordered db_example ["A"] "1m" 60 now_example).
  - vm_compute. reflexivity.
  - apply list_elem_of_here.
Defined.

Lemma agg_first_notna (l : list float) (x : float) :
  In x l -> notna x = true -> notna (agg_first l) = true.
Proof.
  intros Hx Hn. unfold agg_first.
  destruct (List.filter notna l) as [|y k] eqn:E.
  - assert (In x (List.filter notna l)) as H by now apply filter_In.
    rewrite E in H. contradiction.
  - assert (In y (List.filter notna l)) as H by (rewrite E; now left).
    now apply filter_In in H.
Qed.

Lemma agg_max_notna (l : list float) (x : float) :
  In x l -> notna x = true -> notna (agg_max l) = true.
Proof.
  intros Hx Hn. pose proof (agg_max_ub l x Hx Hn) as H.
  destruct (agg_max l); [|reflexivity..].
  destruct x as [|[]|]; discriminate H.
Qed.

Lemma agg_min_notna (l : list float) (x : float) :
  In x l -> notna x = true -> notna (agg_min l) = true.
Proof.
  intros Hx Hn. pose proof (agg_min_lb l x Hx Hn) as H.
  destruct (agg_min l); [discriminate H|reflexivity..].
Qed.

Lemma in_bin_range (w t0 t tl : Z) :
  0 < w -> t0 <= t <= tl ->
  In (floor_ts w t) (bin_range (floor_ts w t0) (floor_ts w tl) w).
Proof.
  intros Hw [H0 Hl]. unfold bin_range. apply in_map_iff.
  rewrite !floor_ts_mul by exact Hw.
  pose proof (Z.div_le_mono t0 t w Hw H0) as D0.
  pose proof (Z.div_le_mono t tl w Hw Hl) as Dl.
  exists (Z.to_nat (t / w - t0 / w)). split; [rewrite Z2Nat.id by lia; ring|].
  apply in_seq.
  replace (w * (tl / w) - w * (t0 / w)) with ((tl / w - t0 / w) * w) by lia.
  rewrite Z.div_mul by lia. lia.
Qed.

Lemma sorted_bounds (l : list TickRow.t) (r0 r : TickRow.t) (k : list TickRow.t) :
  StronglySorted ts_le l -> l = r0 :: k -> In r l ->
  TickRow.ts r0 <= TickRow.ts r <= TickRow.ts (List.last l r0).
Proof.
  intros Hs El Hr. split.
  - rewrite El in Hs, Hr. destruct Hr as [<-|Hr]; [lia|].
    apply (sorted_head_min _ _ _ Hs _ Hr).
  - assert (l <> []) as Hne by (rewrite El; discriminate).
    pose proof (app_removelast_last r0 Hne) as E.
    rewrite E in Hr, Hs. apply in_app_or in Hr as [Hr|[<-|[]]]; [|lia].
    apply (sorted_last_max _ _ _ Hs _ Hr).
Qed.

(** Every row of a frame's input that has a price ends up in a bar of its
    bucket. *)
Lemma resample_symbol_covers (w : Z) (sym : string) (sub : list TickRow.t)
    (r : TickRow.t) :
  0 < w -> In r sub -> notna (TickRow.price r) = true ->
  exists bar, In bar (resample_symbol w sym sub)
              /\ BarRow.symbol bar = sym
              /\ BarRow.ts bar = floor_ts w (TickRow.ts r).
Proof.
  intros Hw Hr Hn. unfold resample_symbol.
  assert (In r (sort_by_ts sub)) as Hrs.
  { apply (Permutation_in _ (Permutation_sym (sort_by_ts_Permutation sub))), Hr. }
  pose proof (sort_by_ts_sorted sub) as Hs.
  destruct (sort_by_ts sub) as [|r0 k] eqn:E; [contradiction|].
  rewrite <- E in *.
  exists (agg_bin w sym (sort_by_ts sub) (floor_ts w (TickRow.ts r))).
  split; [|split; reflexivity].
  apply filter_In. split.
  - apply in_map, in_bin_range; [exact Hw|].
    now apply (sorted_bounds _ _ _ k Hs E).
  - set (G := List.filter (in_bin w (floor_ts w (TickRow.ts r))) (sort_by_ts sub)).
    assert (In (TickRow.price r) (map TickRow.price G)) as Hp.
    { apply in_map, filter_In. split; [exact Hrs|]. unfold in_bin. apply Z.eqb_refl. }
    unfold ohlc_notna, agg_bin. simpl. fold G.
    rewrite (agg_first_notna _ _ Hp Hn), (agg_max_notna _ _ Hp Hn),
            (agg_min_notna _ _ Hp Hn).
    unfold agg_last. rewrite (agg_first_notna _ (TickRow.price r)); [reflexivity| |exact Hn].
    now apply in_rev in Hp.
Qed.

Lemma in_resampled (db : DB) (symbols : list string) (timeframe : string)
    (minutes_back now : Z) (sym : string) (bar : BarRow.t) :
  sym ∈ symbols ->
  In bar (resample_symbol (width_of timeframe) sym
            (List.filter (has_symbol sym) (get_ticks db symbols minutes_back now))) ->
  bar ∈ resampled db symbols timeframe minutes_back now.
Proof.
  intros Hs Hb. unfold resampled.
  apply list_elem_of_In, in_concat.
  destruct (List.filter (has_symbol sym) (get_ticks db symbols minutes_back now))
    as [|r sub] eqn:E.
  { unfold resample_symbol in Hb. simpl in Hb. contradiction. }
  exists (resample_symbol (width_of timeframe) sym (r :: sub)). split; [|exact Hb].
  apply list_elem_of_In, list_elem_of_omap. exists sym. split; [exact Hs|].
  unfold symbol_frame. now rewrite E.
Qed.

(** X4: no priced tick is lost: a stored tick of a requested symbol, at or
    after the cutoff, whose price is not NaN, lies in the bucket of a returned
    bar of its symbol. *)
Theorem priced_tick_has_bar (db : DB) (symbols : list string)
    (timeframe : string) (minutes_back now : Z) (bars_df : list BarRow.t)
    (db' : DB) (t : Tick.t) :
  resample_ticks_to_bars db symbols timeframe minutes_back now = Ok (bars_df, db') ->
  t ∈ ticks db -> Tick.symbol t ∈ symbols ->
  cutoff now minutes_back <= Tick.ts t ->
  notna (Tick.price t) = true ->
  exists bar,
    bar ∈ bars_df
    /\ BarRow.symbol bar = Tick.symbol t
    /\ BarRow.ts bar <= Tick.ts t < BarRow.ts bar + width_of timeframe.
Proof.
  rewrite resample_ticks_to_bars_eq. intros [= <- _] Ht Hs Hc Hn.
  pose proof (width_of_pos timeframe) as Hw.
  destruct (resample_symbol_covers (width_of timeframe) (Tick.symbol t)
              (List.filter (has_symbol (Tick.symbol t))
                           (get_ticks db symbols minutes_back now))
              (tick_row t) Hw) as (bar & Hb & Esym & Ets).
  - apply filter_In. split.
    + apply list_elem_of_In, elem_of_get_ticks. exists t.
      split; [exact Ht|]. split; [reflexivity|]. now apply selected_spec.
    + unfold has_symbol. simpl. now apply bool_decide_eq_true.
  - exact Hn.
  - exists bar. split; [now apply (in_resampled _ _ _ _ _ (Tick.symbol t))|].
    split; [exact Esym|]. rewrite Ets. simpl. now apply floor_ts_bounds.
Qed.

Lemma priced_tick_has_bar_witness :
  exists bar,
    bar ∈ [bar_10_00; bar_10_05]
    /\ BarRow.symbol bar = "A"
    /\ BarRow.ts bar <= t_10_00_00 + 59000000 < BarRow.ts bar + width_of "1m".
Proof.
  eapply (priced_tick_has_bar db_example ["A"] "1m" 60 now_example _ _
            (Tick.mk 2 "A" (t_10_00_00 + 59000000) (q 101) (q 2))).
  - vm_compute. reflexivity.
  - unfold db_example. simpl. apply list_elem_of_further, list_elem_of_here.
  - apply list_elem_of_here.
  - vm_compute. discriminate.
  - reflexivity.
Defined.

Lemma sub_of_single (db : DB) (symbols : list string) (minutes_back now : Z)
    (s : string) :
  s ∈ symbols ->
  List.filter (has_symbol s) (get_ticks db symbols minutes_back now)
  = List.filter (has_symbol s) (get_ticks db [s] minutes_back now).
Proof.
  intros Hs. rewrite !get_ticks_of_symbol.
  rewrite !filter_map_comm, !filter_filter_andb. f_equal.
  apply filter_ext. intros t. unfold has_symbol, selected. simpl.
  destruct (bool_decide (Tick.symbol t = s)) eqn:E; [|reflexivity].
  apply bool_decide_eq_true in E. subst s.
  rewrite (bool_decide_eq_true_2 _ Hs).
  rewrite bool_decide_eq_true_2; [reflexivity|constructor].
Qed.

Lemma resampled_single (db : DB) (timeframe : string) (minutes_back now : Z)
    (s : string) :
  resampled db [s] timeframe minutes_back now
  = default [] (symbol_frame (width_of timeframe)
                             (get_ticks db [s] minutes_back now) s).
Proof.
  unfold resampled. simpl.
  destruct (symbol_frame _ _ s); simpl; [apply app_nil_r|reflexivity].
Qed.

Lemma symbol_frame_sub (w : Z) (df df' : list TickRow.t) (s : string) :
  List.filter (has_symbol s) df = List.filter (has_symbol s) df' ->
  symbol_frame w df s = symbol_frame w df' s.
Proof. intros H. unfold symbol_frame. now rewrite H. Qed.

Lemma resampled_concat (db : DB) (symbols : list string) (timeframe : string)
    (minutes_back now : Z) :
  resampled db symbols timeframe minutes_back now
  = concat (map (fun s => resampled db [s] timeframe minutes_back now) symbols).
Proof.
  unfold resampled at 1.
  assert (forall l, (forall s, s ∈ l -> s ∈ symbols) ->
            concat (omap (symbol_frame (width_of timeframe)
                            (get_ticks db symbols minutes_back now)) l)
            = concat (map (fun s => resampled db [s] timeframe minutes_back now) l)) as H.
  { induction l as [|s l IH]; intros Hl; [reflexivity|].
    simpl. rewrite resampled_single.
    rewrite (symbol_frame_sub _ _ (get_ticks db [s] minutes_back now) s)
      by (apply sub_of_single, Hl; constructor).
    rewrite <- IH by (intros s' Hs'; apply Hl; now constructor).
    now destruct (symbol_frame _ _ s). }
  apply H. auto.
Qed.

(** X5: symbols are resampled independently: the returned frame is the
    concatenation, in the order of [symbols], of the frames the call returns
    for each symbol alone. A symbol listed twice has its bars twice. *)
Theorem resample_symbol_by_symbol (db : DB) (symbols : list string)
    (timeframe : string) (minutes_back now : Z) (bars_df : list BarRow.t)
    (db' : DB) :
  resample_ticks_to_bars db symbols timeframe minutes_back now = Ok (bars_df, db') ->
  exists frames,
    bars_df = concat frames
    /\ Forall2 (fun s frame =>
                  exists db1,
                    resample_ticks_to_bars db [s] timeframe minutes_back now
                    = Ok (frame, db1))
               symbols frames.
Proof.
  rewrite resample_ticks_to_bars_eq. intros [= <- _].
  exists (map (fun s => resampled db [s] timeframe minutes_back now) symbols).
  split; [apply resampled_concat|].
  induction symbols as [|s l IH]; simpl; constructor; [|exact IH].
  rewrite resample_ticks_to_bars_eq. eauto.
Qed.

Lemma resample_symbol_by_symbol_witness :
  exists frames,
    [bar_10_00; bar_10_05; bar_10_00; bar_10_05] = concat frames
    /\ Forall2 (fun s frame =>
                  exists db1,
                    resample_ticks_to_bars db_example [s] "1m" 60 now_example
                    = Ok (frame, db1))
               ["A"; "A"] frames.
Proof.
  eapply (resample_symbol_by_symbol db_example ["A"; "A"] "1m" 60 now_example).
  vm_compute. reflexivity.
Defined.

Lemma bin_range_sorted (lo hi w : Z) :
  0 < w -> StronglySorted Z.lt (bin_range lo hi w).
Proof.
  intros Hw. unfold bin_range.
  generalize (Z.to_nat ((hi - lo) / w) + 1)%nat as n. generalize 0%nat as k.
  intros k n. revert k. induction n as [|n IH]; intros k; simpl; constructor.
  - apply IH.
  - apply List.Forall_forall. intros x Hx. apply in_map_iff in Hx as (i & <- & Hi).
    apply in_seq in Hi. nia.
Qed.

Lemma map_sorted {A B} (R : A -> A -> Prop) (S : B -> B -> Prop) (f : A -> B)
    (l : list A) :
  (forall a b, R a b -> S (f a) (f b)) ->
  StronglySorted R l -> StronglySorted S (map f l).
Proof.
  intros HRS. induction 1 as [|a l Hs IH Ha]; simpl; constructor; [exact IH|].
  apply List.Forall_forall. intros y Hy. apply in_map_iff in Hy as (b & <- & Hb).
  rewrite List.Forall_forall in Ha. auto.
Qed.

Lemma resample_symbol_sorted (w : Z) (sym : string) (sub : list TickRow.t) :
  0 < w ->
  StronglySorted bar_ts_lt (resample_symbol w sym sub)
  /\ forall bar, In bar (resample_symbol w sym sub) ->
                 BarRow.symbol bar = sym /\ BarRow.ts bar mod w = 0.
Proof.
  intros Hw. unfold resample_symbol.
  destruct (sort_by_ts sub) as [|r0 k] eqn:E; [split; [constructor|contradiction]|].
  rewrite <- E. split.
  - apply filter_sorted.
    apply (map_sorted Z.lt); [intros a b H; exact H|].
    now apply bin_range_sorted.
  - intros bar Hb. apply filter_In in Hb as [Hb _].
    apply in_map_iff in Hb as (b & <- & Hb). split; [reflexivity|]. simpl.
    unfold bin_range in Hb. apply in_map_iff in Hb as (i & <- & _).
    rewrite Z.mod_add by lia. now apply floor_ts_aligned.
Qed.

(** X6: for one requested symbol the bars come in strictly ascending time
    order, all carry that symbol, and every bucket start is a multiple of the
    bucket length since the epoch. *)
Theorem single_symbol_bars_ascending (db : DB) (sym : string)
    (timeframe : string) (minutes_back now : Z) (bars_df : list BarRow.t)
    (db' : DB) :
  resample_ticks_to_bars db [sym] timeframe minutes_back now = Ok (bars_df, db') ->
  StronglySorted bar_ts_lt bars_df
  /\ forall bar, bar ∈ bars_df ->
       BarRow.symbol bar = sym /\ BarRow.ts bar mod width_of timeframe = 0.
Proof.
  rewrite resample_ticks_to_bars_eq. intros [= <- _].
  rewrite resampled_single. unfold symbol_frame.
  pose proof (width_of_pos timeframe) as Hw.
  destruct (List.filter (has_symbol sym) _) as [|r sub] eqn:E; simpl.
  - split; [constructor|]. intros bar H. inversion H.
  - destruct (resample_symbol_sorted (width_of timeframe) sym (r :: sub) Hw) as [H1 H2].
    split; [exact H1|]. intros bar Hb. apply H2. now apply list_elem_of_In.
Qed.

Lemma single_symbol_bars_ascending_witness :
  StronglySorted bar_ts_lt [bar_10_00; bar_10_05]
  /\ forall bar, bar ∈ [bar_10_00; bar_10_05] ->
       BarRow.symbol bar = "A" /\ BarRow.ts bar mod width_of "1m" = 0.
Proof.
  eapply (single_symbol_bars_ascending db_example "A" "1m" 60 now_example).
  vm_compute. reflexivity.
Defined.






Lemma NoDup_map_In_eq {A B} (f : A -> B) (l : list A) (a b : A) :
  List.NoDup (map f l) -> In a l -> In b l -> f a = f b -> a = b.
Proof.
  induction l as [|x l IH]; simpl; [contradiction|].
  intros Hnd Ha Hb E. apply List.NoDup_cons_iff in Hnd as [Hx Hnd].
  destruct Ha as [->|Ha], Hb as [->|Hb]; auto.
  - exfalso. apply Hx. rewrite E. now apply in_map.
  - exfalso. apply Hx. rewrite <- E. now apply in_map.
Qed.

Lemma NoDup_map_filter {A B} (f : A -> B) (p : A -> bool) (l : list A) :
  List.NoDup (map f l) -> List.NoDup (map f (List.filter p l)).
Proof.
  induction l as [|x l IH]; simpl; [auto|].
  intros Hnd. apply List.NoDup_cons_iff in Hnd as [Hx Hnd].
  destruct (p x); simpl; [|auto].
  apply List.NoDup_cons_iff. split; [|auto].
  intros H. apply Hx. apply in_map_iff in H as (y & E & Hy).
  apply filter_In in Hy as [Hy _]. rewrite <- E. now apply in_map.
Qed.

(** Two time-sorted lists of the same rows with distinct timestamps are
    the same list. *)
Lemma sorted_perm_unique (l1 l2 : list TickRow.t) :
  StronglySorted ts_le l1 -> StronglySorted ts_le l2 -> Permutation l1 l2 ->
  List.NoDup (map TickRow.ts l1) -> l1 = l2.
Proof.
  revert l2. induction l1 as [|a l1 IH]; intros l2 H1 H2 HP Hnd.
  - apply Permutation_nil in HP. now subst.
  - destruct l2 as [|b l2].
    { apply Permutation_sym, Permutation_nil in HP. discriminate. }
    assert (In a (b :: l2)) as Ha by (apply (Permutation_in _ HP); now left).
    assert (In b (a :: l1)) as Hb
      by (apply (Permutation_in _ (Permutation_sym HP)); now left).
    assert (TickRow.ts a <= TickRow.ts b) as Hab.
    { destruct Hb as [<-|Hb]; [lia|]. apply (sorted_head_min _ _ _ H1 _ Hb). }
    assert (TickRow.ts b <= TickRow.ts a) as Hba.
    { destruct Ha as [<-|Ha]; [lia|]. apply (sorted_head_min _ _ _ H2 _ Ha). }
    assert (a = b) as <-.
    { apply (NoDup_map_In_eq TickRow.ts (a :: l1)); [exact Hnd|now left|exact Hb|lia]. }
    f_equal. apply IH.
    + now apply StronglySorted_inv in H1.
    + now apply StronglySorted_inv in H2.
    + now apply Permutation_cons_inv in HP.
    + simpl in Hnd. now apply List.NoDup_cons_iff in Hnd.
Qed.

Lemma sub_ts_NoDup (db : DB) (symbols : list string) (minutes_back now : Z)
    (s : string) :
  List.NoDup (map tick_key (ticks db)) ->
  List.NoDup (map TickRow.ts
                (List.filter (has_symbol s) (get_ticks db symbols minutes_back now))).
Proof.
  intros Hnd. rewrite get_ticks_of_symbol.
  rewrite filter_map_comm, filter_filter_andb, map_map.
  set (p := fun t : Tick.t => _ && _).
  pose proof (NoDup_map_filter tick_key p _ Hnd) as H.
  assert (map tick_key (List.filter p (ticks db))
          = map (pair s) (map (fun t => TickRow.ts (tick_row t)) (List.filter p (ticks db)))) as E.
  { rewrite map_map. apply map_ext_in. intros t Ht.
    apply filter_In in Ht as [_ Ht]. unfold p in Ht.
    apply andb_true_iff in Ht as [Ht _]. unfold has_symbol in Ht. simpl in Ht.
    apply bool_decide_eq_true in Ht. unfold tick_key. now rewrite Ht. }
  rewrite E in H. now apply NoDup_map_inv in H.
Qed.

Lemma get_ticks_Permutation (db db2 : DB) (symbols : list string)
    (minutes_back now : Z) :
  Permutation (ticks db) (ticks db2) ->
  Permutation (get_ticks db symbols minutes_back now)
              (get_ticks db2 symbols minutes_back now).
Proof.
  intros HP. rewrite !get_ticks_Permutation_scan.
  now apply Permutation_map, filter_Permutation'.
Qed.

Lemma symbol_frame_Permutation (db db2 : DB) (symbols : list string)
    (minutes_back now : Z) (w : Z) (s : string) :
  Permutation (ticks db) (ticks db2) ->
  List.NoDup (map tick_key (ticks db)) ->
  symbol_frame w (get_ticks db symbols minutes_back now) s
  = symbol_frame w (get_ticks db2 symbols minutes_back now) s.
Proof.
  intros HP Hnd. unfold symbol_frame.
  pose proof (filter_Permutation' (has_symbol s) _ _
                (get_ticks_Permutation db db2 symbols minutes_back now HP)) as Hsub.
  pose proof (sub_ts_NoDup db symbols minutes_back now s Hnd) as Hts.
  destruct (List.filter (has_symbol s) (get_ticks db symbols minutes_back now))
    as [|r sub] eqn:E1;
    destruct (List.filter (has_symbol s) (get_ticks db2 symbols minutes_back now))
    as [|r2 sub2] eqn:E2.
  - reflexivity.
  - apply Permutation_nil in Hsub. discriminate.
  - apply Permutation_sym, Permutation_nil in Hsub. discriminate.
  - f_equal. unfold resample_symbol.
    assert (sort_by_ts (r :: sub) = sort_by_ts (r2 :: sub2)) as ->; [|reflexivity].
    apply sorted_perm_unique; try apply sort_by_ts_sorted.
    + rewrite !sort_by_ts_Permutation. exact Hsub.
    + eapply Permutation_NoDup; [|exact Hts].
      apply Permutation_map, Permutation_sym, sort_by_ts_Permutation.
Qed.

(** X9: with distinct (symbol, timestamp), the bars do not depend on the order
    in which the ticks were stored. *)
Theorem bars_independent_of_storage_order (db db2 : DB) (symbols : list string)
    (timeframe : string) (minutes_back now : Z) (bars_df : list BarRow.t)
    (db1 : DB) :
  Permutation (ticks db) (ticks db2) ->
  List.NoDup (map tick_key (ticks db)) ->
  resample_ticks_to_bars db symbols timeframe minutes_back now = Ok (bars_df, db1) ->
  exists db3,
    resample_ticks_to_bars db2 symbols timeframe minutes_back now = Ok (bars_df, db3).
Proof.
  intros HP Hnd. rewrite !resample_ticks_to_bars_eq. intros [= <- _].
  assert (resampled db2 symbols timeframe minutes_back now
          = resampled db symbols timeframe minutes_back now) as ->.
  { unfold resampled. f_equal.
    assert (forall l : list string,
              omap (symbol_frame (width_of timeframe)
                      (get_ticks db2 symbols minutes_back now)) l
              = omap (symbol_frame (width_of timeframe)
                        (get_ticks db symbols minutes_back now)) l) as H; [|apply H].
    induction l as [|s l IH]; [reflexivity|].
    simpl. rewrite <- (symbol_frame_Permutation db db2 symbols minutes_back now _ s HP Hnd).
    destruct (symbol_frame _ _ s); [f_equal|]; exact IH. }
  eexists. reflexivity.
Qed.

Lemma bars_independent_of_storage_order_witness :
  exists db3,
    resample_ticks_to_bars db_example_rev ["A"] "1m" 60 now_example
    = Ok ([bar_10_00; bar_10_05], db3).
Proof.
  eapply (bars_independent_of_storage_order db_example db_example_rev).
  - apply Permutation_rev.
  - apply NoDup_ListNoDup, (bool_decide_unpack _). vm_compute. exact I.
  - vm_compute. reflexivity.
Defined.

(** *** Volume *)

Lemma fsum_normal (l : list float) : fadd (Fin 0%Q) (fsum l) = fsum l.
Proof.
  destruct l as [|x l]; [reflexivity|]. simpl.
  destruct x as [|s|a], (fsum l) as [|s'|b]; simpl; try reflexivity.
  - now destruct (Bool.eqb s s').
  - f_equal. unfold Qadd. apply Qred_complete.
    rewrite Qred_correct. ring.
Qed.

Lemma fsum_app (a b : list float) : fsum (a ++ b) = fadd (fsum a) (fsum b).
Proof.
  induction a as [|x a IH]; simpl.
  - symmetry. apply fsum_normal.
  - now rewrite IH, fadd_assoc.
Qed.

Lemma fsum_concat (ls : list (list float)) :
  fsum (map fsum ls) = fsum (concat ls).
Proof.
  induction ls as [|l ls IH]; simpl; [reflexivity|].
  now rewrite fsum_app, IH.
Qed.

(** Each row falls in one bucket of a duplicate-free list of buckets that
    holds its own. *)
Lemma bins_partition (w : Z) (bins : list Z) (l : list TickRow.t) :
  List.NoDup bins ->
  (forall r, In r l -> In (floor_ts w (TickRow.ts r)) bins) ->
  Permutation (concat (map (fun b => List.filter (in_bin w b) l) bins)) l.
Proof.
  intros Hnd. induction l as [|x l IH]; intros Hin.
  - clear. induction bins as [|b bins IH]; simpl; [constructor|exact IH].
  - specialize (IH (fun r Hr => Hin r (or_intror Hr))).
    apply Permutation_trans
      with (x :: concat (map (fun b => List.filter (in_bin w b) l) bins));
      [|now constructor].
    pose proof (Hin x (or_introl eq_refl)) as Hx.
    clear IH Hin. revert Hnd Hx.
    induction bins as [|b bins IH]; intros Hnd Hx; [contradiction|].
    apply List.NoDup_cons_iff in Hnd as [Hb Hnd].
    cbn [map concat].
    assert (List.filter (in_bin w b) (x :: l)
            = if in_bin w b x then x :: List.filter (in_bin w b) l
              else List.filter (in_bin w b) l) as -> by reflexivity.
    unfold in_bin at 1.
    destruct (Z.eqb_spec (floor_ts w (TickRow.ts x)) b) as [E|E].
    + rewrite <- app_comm_cons. constructor. apply Permutation_app_head.
      assert (map (fun b0 => List.filter (in_bin w b0) (x :: l)) bins
              = map (fun b0 => List.filter (in_bin w b0) l) bins) as ->;
        [|reflexivity].
      apply map_ext_in. intros b' Hb'. simpl. unfold in_bin at 1.
      destruct (Z.eqb_spec (floor_ts w (TickRow.ts x)) b'); [|reflexivity].
      congruence.
    + destruct Hx as [Hx|Hx]; [congruence|].
      rewrite (IH Hnd Hx). symmetry. apply Permutation_middle.
Qed.

Lemma StronglySorted_lt_NoDup (l : list Z) :
  StronglySorted Z.lt l -> List.NoDup l.
Proof.
  induction 1 as [|x l _ IH Hx]; constructor; [|exact IH].
  intros Hin. rewrite List.Forall_forall in Hx. specialize (Hx x Hin). lia.
Qed.

Lemma agg_sum_Permutation (l k : list float) :
  Permutation l k -> agg_sum l = agg_sum k.
Proof.
  intros H. unfold agg_sum. apply fsum_Permutation.
  now apply filter_Permutation'.
Qed.

(** A bucket without OHLC holds no priced row. *)
Lemma ohlc_na_no_price (w : Z) (sym : string) (sorted : list TickRow.t) (b : Z)
    (r : TickRow.t) :
  ohlc_notna (agg_bin w sym sorted b) = false ->
  In r (List.filter (in_bin w b) sorted) -> notna (TickRow.price r) = false.
Proof.
  intros Hna Hr. destruct (notna (TickRow.price r)) eqn:Hn; [|reflexivity].
  assert (In (TickRow.price r)
             (map TickRow.price (List.filter (in_bin w b) sorted))) as Hp
    by now apply in_map.
  unfold ohlc_notna, agg_bin in Hna. simpl in Hna.
  rewrite (agg_first_notna _ _ Hp Hn), (agg_max_notna _ _ Hp Hn),
          (agg_min_notna _ _ Hp Hn) in Hna.
  unfold agg_last in Hna.
  rewrite (agg_first_notna _ (TickRow.price r)) in Hna; [discriminate| |exact Hn].
  now apply in_rev in Hp.
Qed.

Lemma resample_symbol_volume (w : Z) (sym : string) (sub : list TickRow.t) :
  0 < w ->
  (forall r, In r sub -> notna (TickRow.price r) = true) ->
  fsum (map BarRow.volume (resample_symbol w sym sub))
  = agg_sum (map TickRow.qty sub).
Proof.
  intros Hw Hp.
  pose proof (sort_by_ts_Permutation sub) as Hperm.
  pose proof (sort_by_ts_sorted sub) as Hs.
  rewrite <- (agg_sum_Permutation _ _ (Permutation_map TickRow.qty Hperm)).
  assert (forall r, In r (sort_by_ts sub) -> notna (TickRow.price r) = true) as Hp'.
  { intros r Hr. apply Hp. apply (Permutation_in _ Hperm), Hr. }
  unfold resample_symbol. clear Hp Hperm.
  destruct (sort_by_ts sub) as [|r0 k] eqn:E; [reflexivity|].
  rewrite <- E in *.
  set (sorted := sort_by_ts sub) in *.
  set (bins := bin_range _ _ w).
  (* dropped buckets are empty *)
  assert (fsum (map BarRow.volume
                  (List.filter ohlc_notna (map (agg_bin w sym sorted) bins)))
          = fsum (map BarRow.volume (map (agg_bin w sym sorted) bins))) as ->.
  { induction bins as [|b bins IH]; [reflexivity|].
    simpl. destruct (ohlc_notna (agg_bin w sym sorted b)) eqn:Hn.
    - simpl. now rewrite IH.
    - rewrite IH.
      assert (List.filter (in_bin w b) sorted = []) as ->.
      { destruct (List.filter (in_bin w b) sorted) as [|r g] eqn:G; [reflexivity|].
        assert (In r (List.filter (in_bin w b) sorted)) as Hr
          by (rewrite G; now left).
        pose proof (ohlc_na_no_price _ _ _ _ _ Hn Hr) as Hc.
        apply filter_In in Hr as [Hr _]. rewrite (Hp' r Hr) in Hc. discriminate. }
      simpl. symmetry. apply fsum_normal. }
  rewrite map_map. cbn [agg_bin BarRow.volume].
  unfold agg_sum at 1.
  rewrite <- (map_map (fun b => List.filter notna
                                   (map TickRow.qty (List.filter (in_bin w b) sorted)))
                      fsum).
  rewrite fsum_concat.
  assert (concat (map (fun b => List.filter notna
                      (map TickRow.qty (List.filter (in_bin w b) sorted))) bins)
          = List.filter notna (map TickRow.qty
              (concat (map (fun b => List.filter (in_bin w b) sorted) bins)))) as ->.
  { rewrite concat_map, <- concat_filter_map, !map_map. reflexivity. }
  apply fsum_Permutation, filter_Permutation', Permutation_map.
  apply bins_partition.
  - apply StronglySorted_lt_NoDup, bin_range_sorted, Hw.
  - intros r Hr. subst bins. apply in_bin_range; [exact Hw|].
    now apply (sorted_bounds _ _ _ k Hs E).
Qed.

(** X10: when every selected tick of the symbol has a price, the volumes of the
    returned bars add up to the quantity of the selected ticks (NaN
    quantities skipped): no quantity is lost or counted twice. *)
Theorem volume_conserved (db : DB) (sym : string) (timeframe : string)
    (minutes_back now : Z) (bars_df : list BarRow.t) (db' : DB) :
  resample_ticks_to_bars db [sym] timeframe minutes_back now = Ok (bars_df, db') ->
  (forall r, r ∈ get_ticks db [sym] minutes_back now ->
             notna (TickRow.price r) = true) ->
  fsum (map BarRow.volume bars_df)
  = agg_sum (map TickRow.qty (get_ticks db [sym] minutes_back now)).
Proof.
  rewrite resample_ticks_to_bars_eq. intros [= <- _] Hp.
  rewrite resampled_single. unfold symbol_frame.
  assert (List.filter (has_symbol sym) (get_ticks db [sym] minutes_back now)
          = get_ticks db [sym] minutes_back now) as Esub.
  { rewrite get_ticks_single. rewrite filter_map_comm, filter_filter_andb.
    f_equal. apply filter_ext. intros t. unfold has_symbol, selected. simpl.
    destruct (bool_decide (Tick.symbol t ∈ [sym])) eqn:E; [|apply andb_false_r].
    apply bool_decide_eq_true in E. apply list_elem_of_In in E as [E|[]].
    rewrite bool_decide_eq_true_2 by congruence. reflexivity. }
  rewrite Esub.
  destruct (get_ticks db [sym] minutes_back now) as [|r sub] eqn:E;
    [reflexivity|].
  cbn [default from_option id]. rewrite <- E in *.
  apply resample_symbol_volume; [apply width_of_pos|].
  intros r' Hr'. apply Hp. now apply list_elem_of_In.
Qed.

Lemma volume_conserved_witness :
  fsum (map BarRow.volume [bar_10_00; bar_10_05])
  = agg_sum (map TickRow.qty (get_ticks db_example ["A"] 60 now_example)).
Proof.
  apply (volume_conserved db_example "A" "1m" 60 now_example _
           (mkDB (ticks db_example)
                 (persist_bars "1m" (bars db_example) [bar_10_00; bar_10_05]))).
  - vm_compute. reflexivity.
  - intros r Hr. vm_compute in Hr.
    apply list_elem_of_In in Hr.
    repeat (destruct Hr as [<-|Hr]; [reflexivity|]). contradiction.
Defined.

(** ** More on the pairs analytics *)

Lemma index_imap_rows {A} (g : nat -> Z * A -> float) (l : list (Z * A)) :
  index (imap (fun i r => (fst r, g i r)) l) = map fst l.
Proof.
  revert g. induction l as [|p l IH]; intros g; simpl; [reflexivity|].
  f_equal. apply (IH (fun i => g (S i))).
Qed.

Lemma values_imap_rows {A} (g : nat -> float) (l : list (Z * A)) (i : nat) (v : float) :
  values (imap (fun i r => (fst r, g i)) l) !! i = Some v -> v = g i.
Proof.
  unfold values. change (map snd ?l) with (snd <$> l).
  rewrite list_lookup_fmap, list_lookup_imap.
  destruct (l !! i); simpl; [|discriminate]. now intros [= <-].
Qed.

Lemma corr_at_warmup (Qsqrt : Q -> Q) (window : Z) (x y : list float) (i : nat) :
  0 <= window -> Z.of_nat i + 1 < window ->
  corr_at Qsqrt window window x y i = NaN.
Proof.
  intros Hw Hi. unfold corr_at.
  assert (roll_mean_at window (observations window x i) = NaN) as ->.
  { unfold roll_mean_at.
    destruct (observations_bound window x i Hw) as [Hb _].
    assert ((window <=? Z.of_nat (length (observations window x i))) = false) as ->
      by (apply Z.leb_gt; lia).
    reflexivity. }
  simpl. destruct (roll_mean_at window _); reflexivity.
Qed.

(** X11: rolling correlation: empty below [window] aligned rows, otherwise on
    the aligned index with no value before a full window. *)
Theorem rolling_corr_no_partial_window (Qsqrt : Q -> Q) (px_x px_y : Series)
    (window : Z) (r : Series) :
  compute_rolling_corr Qsqrt px_x px_y window = Ok r ->
  (Z.of_nat (length (aligned px_x px_y)) < window -> r = [])
  /\ (window <= Z.of_nat (length (aligned px_x px_y)) ->
      index r = map fst (aligned px_x px_y))
  /\ (forall i v, values r !! i = Some v -> Z.of_nat i + 1 < window -> v = NaN).
Proof.
  unfold compute_rolling_corr.
  destruct (Z.of_nat (length (aligned px_x px_y)) <? window) eqn:E.
  - intros [= <-]. apply Z.ltb_lt in E. repeat split; [lia|].
    intros i v H. discriminate H.
  - apply Z.ltb_ge in E. destruct (window <? 0) eqn:Ew; [discriminate|].
    apply Z.ltb_ge in Ew. intros [= <-]. repeat split; [lia| |].
    + intros _. apply (index_imap_rows (fun i _ => corr_at Qsqrt window window _ _ i)).
    + intros i v Hv Hi.
      apply (values_imap_rows (fun i => corr_at Qsqrt window window _ _ i)) in Hv.
      subst v. now apply corr_at_warmup.
Qed.

Lemma rolling_corr_no_partial_window_witness :
  (Z.of_nat (length (aligned px_short_x px_short_y)) < 3 ->
   [(0, NaN); (1, NaN); (2, q 1); (3, q 1); (4, q 1); (5, q 1)] = [])
  /\ (3 <= Z.of_nat (length (aligned px_short_x px_short_y)) ->
      index [(0, NaN); (1, NaN); (2, q 1); (3, q 1); (4, q 1); (5, q 1)]
      = map fst (aligned px_short_x px_short_y))
  /\ (forall i v,
        values [(0, NaN); (1, NaN); (2, q 1); (3, q 1); (4, q 1); (5, q 1)] !! i = Some v ->
        Z.of_nat i + 1 < 3 -> v = NaN).
Proof.
  apply (rolling_corr_no_partial_window Qsqrt_floor px_short_x px_short_y 3).
  vm_compute. reflexivity.
Defined.

(** X12: a negative window is an error, not an empty result: the rolling
    correlation raises ValueError for every input, and so does the spread
    computation whenever the hedge ratio is a number. *)
Theorem negative_window_raises (Qsqrt : Q -> Q) (px_x px_y : Series) (window : Z) :
  window < 0 ->
  compute_rolling_corr Qsqrt px_x px_y window = Raise ValueError
  /\ forall b, compute_hedge_ratio px_x px_y = Ok b -> isnan b = false ->
       compute_spread_and_zscore Qsqrt px_x px_y window = Raise ValueError.
Proof.
  intros Hw. split.
  - unfold compute_rolling_corr.
    assert ((Z.of_nat (length (aligned px_x px_y)) <? window) = false) as ->
      by (apply Z.ltb_ge; lia).
    apply Z.ltb_lt in Hw. now rewrite Hw.
  - intros b Hb Hn. unfold compute_spread_and_zscore. rewrite Hb.
    unfold mbind, result_bind. simpl. rewrite Hn.
    unfold rolling_mean, rolling. apply Z.ltb_lt in Hw. now rewrite Hw.
Qed.

Lemma negative_window_raises_witness :
  compute_rolling_corr Qsqrt_floor px_x_example px_y_example (-1) = Raise ValueError
  /\ forall b, compute_hedge_ratio px_x_example px_y_example = Ok b -> isnan b = false ->
       compute_spread_and_zscore Qsqrt_floor px_x_example px_y_example (-1)
       = Raise ValueError.
Proof.
  apply negative_window_raises. lia.
Defined.

Lemma finite_regressor (al : list (Z * (float * float))) (c : Q) :
  (forall r, In r al -> exists v, snd (snd r) = Fin v /\ (v == c)%Q) ->
  all_finite (map (fun r => snd (snd r)) al) = true
  /\ forall v, In v (finite_vals (map (fun r => snd (snd r)) al)) -> (v == c)%Q.
Proof.
  intros H. induction al as [|r al IH]; simpl.
  - split; [reflexivity|contradiction].
  - destruct (H r (or_introl eq_refl)) as (v & Ev & Hv).
    destruct IH as [IH1 IH2]; [intros r' Hr'; apply H; now right|].
    rewrite Ev. simpl. split; [exact IH1|].
    unfold finite_vals. simpl. intros v' [<-|Hv']; [exact Hv|now apply IH2].
Qed.

Lemma length_finite_vals_all (l : list float) :
  all_finite l = true -> length (finite_vals l) = length l.
Proof.
  induction l as [|x l IH]; simpl; [reflexivity|].
  intros H. apply andb_true_iff in H as [Hx Hl].
  destruct x; try discriminate. unfold finite_vals in *. simpl. now rewrite IH.
Qed.

(** X13: whatever the series: with at least ten aligned rows whose regressor
    values are all the same non-zero number, the hedge ratio raises
    IndexError, and the spread computation with it. *)
Theorem constant_regressor_raises (Qsqrt : Q -> Q) (px_x px_y : Series)
    (window : Z) (c : Q) :
  10 <= Z.of_nat (length (aligned px_x px_y)) ->
  (forall r, In r (aligned px_x px_y) ->
             exists v, snd (snd r) = Fin v /\ (v == c)%Q) ->
  ~ (c == 0)%Q ->
  compute_hedge_ratio px_x px_y = Raise IndexError
  /\ compute_spread_and_zscore Qsqrt px_x px_y window = Raise IndexError.
Proof.
  intros Hlen Hc Hnz.
  assert (compute_hedge_ratio px_x px_y = Raise IndexError) as Hh.
  { unfold compute_hedge_ratio.
    assert ((Z.of_nat (length (aligned px_x px_y)) <? 10) = false) as ->
      by (apply Z.ltb_ge; lia).
    destruct (finite_regressor _ c Hc) as [Hfin Hall].
    unfold ols_slope. rewrite Hfin.
    pose proof (length_finite_vals_all _ Hfin) as Hl. rewrite length_map in Hl.
    set (xq := finite_vals _) in *.
    assert (is_nonzero_const xq = true) as ->; [|reflexivity].
    unfold is_nonzero_const. destruct xq as [|c0 xq'] eqn:E.
    { simpl in Hl. lia. }
    rewrite <- E in *. apply andb_true_iff. split; apply forallb_forall; intros v Hv.
    - apply Qeq_bool_iff. rewrite (Hall v Hv).
      symmetry. apply Hall. rewrite E. now left.
    - apply negb_true_iff. destruct (Qzerob v) eqn:Ez; [|reflexivity].
      apply Qzerob_iff in Ez. rewrite (Hall v Hv) in Ez. contradiction. }
  split; [exact Hh|].
  unfold compute_spread_and_zscore. now rewrite Hh.
Qed.

Lemma constant_regressor_raises_witness :
  compute_hedge_ratio px_moving px_flat = Raise IndexError
  /\ compute_spread_and_zscore Qsqrt_floor px_moving px_flat 4 = Raise IndexError.
Proof.
  apply (constant_regressor_raises Qsqrt_floor px_moving px_flat 4 (inject_Z 50)).
  - vm_compute. discriminate.
  - intros r Hr. vm_compute in Hr.
    repeat (destruct Hr as [<-|Hr]; [eexists; split; reflexivity|]).
    contradiction.
  - intros H. vm_compute in H. discriminate H.
Defined.

Lemma Qred_zero (a : Q) : (a == 0)%Q -> Qred a = 0%Q.
Proof. intros H. now rewrite (Qred_complete _ _ H). Qed.

Lemma fsum_zero_weights (w : list Q) (y : list float) :
  (forall a, In a w -> a = 0%Q) -> all_finite y = true ->
  fsum (zip_with fmul (map Fin w) y) = Fin 0%Q.
Proof.
  revert y. induction w as [|a w IH]; intros [|b y] Hw Hy; simpl; try reflexivity.
  apply andb_true_iff in Hy as [Hb Hy].
  rewrite IH; [|intros a' Ha'; apply Hw; now right|exact Hy].
  rewrite (Hw a (or_introl eq_refl)).
  destruct b as [| |u]; try discriminate. simpl. reflexivity.
Qed.

Lemma zero_ssd (xs : list Q) :
  (forall v, In v xs -> (v == 0)%Q) -> (Qssd xs == 0)%Q.
Proof.
  intros H.
  assert (Forall (fun v => (v == 0)%Q) xs) as HF by now apply List.Forall_forall.
  destruct (Qsum_const xs 0%Q HF) as [E1 E2].
  rewrite Qssd_moments, E2.
  assert (Qmean xs == 0)%Q as ->.
  { unfold Qmean. rewrite Qquo_correct, E1. unfold Qdiv. ring. }
  rewrite E1. ring.
Qed.

(** X14: a regressor that is identically zero does not raise: on ten or more
    aligned rows with finite dependent values the hedge ratio is zero. *)
Theorem zero_regressor_slope_zero (px_x px_y : Series) :
  10 <= Z.of_nat (length (aligned px_x px_y)) ->
  (forall r, In r (aligned px_x px_y) ->
             isfinite (fst (snd r)) = true
             /\ exists v, snd (snd r) = Fin v /\ (v == 0)%Q) ->
  compute_hedge_ratio px_x px_y = Ok (Fin 0%Q).
Proof.
  intros Hlen H. unfold compute_hedge_ratio.
  assert ((Z.of_nat (length (aligned px_x px_y)) <? 10) = false) as ->
    by (apply Z.ltb_ge; lia).
  destruct (finite_regressor (aligned px_x px_y) 0%Q) as [Hfin Hall].
  { intros r Hr. now apply H. }
  unfold ols_slope. rewrite Hfin.
  pose proof (length_finite_vals_all _ Hfin) as Hl. rewrite length_map in Hl.
  set (xq := finite_vals _) in *.
  assert (is_nonzero_const xq = false) as ->.
  { unfold is_nonzero_const. destruct xq as [|c0 xq'] eqn:E; [reflexivity|].
    rewrite <- E in *. apply andb_false_iff. right. rewrite E. simpl.
    assert (Qzerob c0 = true) as ->; [|reflexivity].
    apply Qzerob_iff, Hall. rewrite E. now left. }
  f_equal. unfold slope_weights.
  assert (Qzerob (Qssd xq) = true) as -> by (apply Qzerob_iff, zero_ssd, Hall).
  apply fsum_zero_weights.
  - intros a Ha. apply in_map_iff in Ha as (v & <- & _). reflexivity.
  - unfold all_finite. apply forallb_forall. intros y Hy.
    apply in_map_iff in Hy as (r & <- & Hr). now apply H.
Qed.

Lemma zero_regressor_slope_zero_witness :
  compute_hedge_ratio px_moving px_zero = Ok (Fin 0%Q).
Proof.
  apply zero_regressor_slope_zero.
  - vm_compute. discriminate.
  - intros r Hr. vm_compute in Hr.
    repeat (destruct Hr as [<-|Hr]; [split; [reflexivity|eexists; split; reflexivity]|]).
    contradiction.
Defined.

Lemma zscore_nan_positions (Qsqrt : Q -> Q) (px_x px_y : Series)
    (window : Z) (spread z : Series) :
  compute_spread_and_zscore Qsqrt px_x px_y window = Ok (spread, z) ->
  index z = index spread
  /\ forall i v, values z !! i = Some v ->
       (values spread !! i = Some NaN \/ Z.of_nat i + 1 < window / 2) ->
       v = NaN.
Proof.
  intros H.
  destruct (compute_hedge_ratio px_x px_y) as [b|e] eqn:Hb.
  2:{ unfold compute_spread_and_zscore in H. rewrite Hb in H. discriminate H. }
  destruct (isnan b) eqn:Hn.
  { unfold compute_spread_and_zscore in H. rewrite Hb in H.
    unfold mbind, result_bind in H. simpl in H. rewrite Hn in H.
    injection H as <- <-. split; [reflexivity|]. intros i v Hv. discriminate Hv. }
  destruct (spread_and_zscore_Ok _ _ _ _ _ _ _ Hb Hn H) as (_ & rm & rs & Hm & Hs & ->).
  pose proof (rolling_index _ _ _ _ _ Hm) as Im.
  pose proof (rolling_index _ _ _ _ _ Hs) as Is.
  destruct (rolling_Ok _ _ _ _ _ Hm) as [Hw _].
  destruct (series_binop_same_index fsub spread rm (eq_sym Im)) as [Ei Ev].
  destruct (series_binop_same_index fdiv (series_sub spread rm) rs) as [Ej Ez].
  { unfold series_sub. now rewrite Ei, Is. }
  unfold zscore, series_div, series_sub in *. split; [now rewrite Ej, Ei|].
  intros i v Hv Hc. rewrite Ez, Ev, !lookup_zip_with in Hv.
  destruct (values spread !! i) as [sv|] eqn:Hsv; [|discriminate Hv].
  pose proof (rolling_lookup _ _ _ _ _ i Hm) as Lm.
  destruct (values rm !! i) as [mv|] eqn:Hmv; [|discriminate Hv].
  destruct (values rs !! i) as [dv|] eqn:Hdv; [|discriminate Hv].
  simpl in Hv. injection Hv as <-.
  destruct Hc as [[= ->]|Hi]; [reflexivity|].
  assert (mv = NaN) as ->.
  { unfold Series in *. destruct (spread !! i); [|discriminate Lm].
    simpl in Lm. injection Lm as ->. unfold roll_mean_at.
    destruct (observations_bound window (values spread) i Hw) as [Hb' _].
    assert ((window / 2 <=? Z.of_nat (length (observations window (values spread) i))) = false) as ->
      by (apply Z.leb_gt; lia).
    reflexivity. }
  destruct sv as [|[]|]; reflexivity.
Qed.

(** X15: the z-score has the index of the spread, is NaN where the spread is
    NaN and before [window // 2] positions. *)
Theorem zscore_follows_spread (Qsqrt : Q -> Q) (px_x px_y : Series)
    (window : Z) (spread z : Series) :
  compute_spread_and_zscore Qsqrt px_x px_y window = Ok (spread, z) ->
  index z = index spread
  /\ forall i v, values z !! i = Some v ->
       (values spread !! i = Some NaN \/ Z.of_nat i + 1 < window / 2) ->
       v = NaN.
Proof.
  apply zscore_nan_positions.
Qed.

Lemma zscore_follows_spread_witness :
  exists spread z,
    compute_spread_and_zscore Qsqrt_floor px_x_example px_y_example 4 = Ok (spread, z)
    /\ index z = index spread
    /\ forall i v, values z !! i = Some v ->
         (values spread !! i = Some NaN \/ Z.of_nat i + 1 < 4 / 2) ->
         v = NaN.
Proof.
  eexists _, _. split; [vm_compute; reflexivity|].
  eapply (zscore_follows_spread Qsqrt_floor px_x_example px_y_example 4).
  vm_compute. reflexivity.
Defined.

Lemma loc_In (s : Series) (t : Z) (v : float) :
  loc s t = Some v -> In (t, v) s.
Proof.
  induction s as [|[t' v'] s IH]; simpl; [discriminate|].
  destruct (t' =? t) eqn:E.
  - apply Z.eqb_eq in E. intros [= ->]. left. now subst.
  - intros H. right. now apply IH.
Qed.

Lemma In_loc (s : Series) (t : Z) (v : float) :
  List.NoDup (index s) -> In (t, v) s -> loc s t = Some v.
Proof.
  induction s as [|[t' v'] s IH]; simpl; [contradiction|].
  intros Hnd Hin. apply List.NoDup_cons_iff in Hnd as [Hx Hnd].
  destruct Hin as [[= -> ->]|Hin].
  - now rewrite Z.eqb_refl.
  - destruct (t' =? t) eqn:E; [|now apply IH].
    apply Z.eqb_eq in E. subst. exfalso. apply Hx.
    apply in_map_iff. now exists (t, v).
Qed.

Lemma series_binop_NoDup (op : float -> float -> float) (a b : Series) :
  List.NoDup (index a) -> List.NoDup (index (series_binop op a b)).
Proof.
  intros Ha. unfold series_binop. destruct (decide (index a = index b)) as [E|E].
  - now rewrite index_zip.
  - unfold index. rewrite map_map. simpl. rewrite map_id.
    unfold union_index. apply NoDup_ListNoDup.
    rewrite (merge_sort_Permutation Z.le). apply NoDup_remove_dups.
Qed.

(** A number in the spread sits at a timestamp of an aligned row. *)
Lemma spread_number_aligned (px_x px_y : Series) (b : float) (t : Z) (v : float) :
  loc (series_sub px_x (series_scale b px_y)) t = Some v -> notna v = true ->
  In t (map fst (aligned px_x px_y)).
Proof.
  unfold series_sub. rewrite series_binop_loc, loc_scale.
  destruct (decide _) as [_|_]; [|discriminate].
  intros [= <-] Hv.
  destruct (loc px_x t) as [xv|] eqn:Ex; [|discriminate Hv].
  destruct (loc px_y t) as [yv|] eqn:Ey; simpl in Hv.
  2:{ destruct xv; discriminate Hv. }
  assert (notna xv = true) as Hx by (destruct xv; [discriminate Hv|reflexivity..]).
  assert (notna yv = true) as Hy.
  { destruct yv; [|reflexivity..]. destruct xv, b; discriminate Hv. }
  apply in_map_iff. exists (t, (xv, yv)). split; [reflexivity|].
  unfold aligned. apply filter_In. split.
  - apply list_elem_of_In. unfold inner_join. apply list_elem_of_omap.
    exists (t, xv). split; [apply list_elem_of_In; now apply loc_In|].
    simpl. now rewrite Ey.
  - unfold row_notna. simpl. now rewrite Hx, Hy.
Qed.

Lemma spread_numbers_bound (px_x px_y : Series) (b : float) :
  List.NoDup (index px_x) ->
  (length (List.filter notna (values (series_sub px_x (series_scale b px_y))))
   <= length (aligned px_x px_y))%nat.
Proof.
  intros Hx. set (s := series_sub px_x (series_scale b px_y)).
  pose proof (series_binop_NoDup fsub px_x (series_scale b px_y) Hx) as Hs.
  fold (series_sub px_x (series_scale b px_y)) in Hs. fold s in Hs.
  unfold values. rewrite filter_map_comm, length_map.
  rewrite <- (length_map fst (List.filter _ s)), <- (length_map fst (aligned px_x px_y)).
  apply NoDup_incl_length.
  - now apply NoDup_map_filter.
  - intros t Ht. apply in_map_iff in Ht as ([t' v] & <- & Hp).
    apply filter_In in Hp as [Hp Hv]. simpl in *.
    apply (spread_number_aligned px_x px_y b t' v); [|exact Hv].
    now apply In_loc.
Qed.

Section AdfProperties.
Variable Qsqrt : Q -> Q.
Variable adfuller : list float -> result (float * float).

(** X16: the spread returned for two series with fewer than twenty aligned
    rows never reaches [adfuller]: the NaN entries at unmatched timestamps do
    not count, and the test is not available. *)
Theorem adf_needs_twenty_aligned (px_x px_y : Series) (window : Z)
    (spread z : Series) :
  List.NoDup (index px_x) ->
  compute_spread_and_zscore Qsqrt px_x px_y window = Ok (spread, z) ->
  Z.of_nat (length (aligned px_x px_y)) < 20 ->
  run_adf_test adfuller spread = Ok (None, None).
Proof.
  intros Hx H Hlen.
  assert (Z.of_nat (length (List.filter notna (values spread))) < 20) as Hn.
  { destruct (compute_hedge_ratio px_x px_y) as [b|e] eqn:Hb.
    2:{ unfold compute_spread_and_zscore in H. rewrite Hb in H. discriminate H. }
    destruct (isnan b) eqn:Hnan.
    - unfold compute_spread_and_zscore in H. rewrite Hb in H.
      unfold mbind, result_bind in H. simpl in H. rewrite Hnan in H.
      injection H as <- <-. simpl. lia.
    - destruct (spread_and_zscore_Ok _ _ _ _ _ _ _ Hb Hnan H) as (-> & _).
      pose proof (spread_numbers_bound px_x px_y b Hx). lia. }
  unfold run_adf_test. apply Z.ltb_lt in Hn. now rewrite Hn.
Qed.
End AdfProperties.

Lemma adf_needs_twenty_aligned_witness :
  exists spread z,
    compute_spread_and_zscore Qsqrt_floor px_x_example px_y_example 4 = Ok (spread, z)
    /\ run_adf_test adfuller_unavailable spread = Ok (None, None).
Proof.
  eexists _, _. split; [vm_compute; reflexivity|].
  eapply (adf_needs_twenty_aligned Qsqrt_floor adfuller_unavailable
            px_x_example px_y_example 4).
  - apply NoDup_ListNoDup, NoDup_ten_x.
  - vm_compute. reflexivity.
  - vm_compute. reflexivity.
Defined.

(** ** The trade stream *)

Lemma round_half_even_int (n : Z) :
  round_half_even (inject_Z n * inject_Z 1000)%Q = 1000 * n.
Proof.
  unfold round_half_even.
  assert (Qfloor (inject_Z n * inject_Z 1000) = 1000 * n) as ->.
  { unfold Qfloor, inject_Z, Qmult. cbn [Qnum Qden].
    rewrite Z.div_1_r. lia. }
  assert (((inject_Z n * inject_Z 1000 - inject_Z (1000 * n)) ?= (1 # 2))%Q = Lt) as ->.
  { apply Qlt_alt.
    assert (inject_Z n * inject_Z 1000 - inject_Z (1000 * n) == 0)%Q as ->.
    { rewrite <- inject_Z_mult. unfold Qeq, Qminus, Qplus, Qopp, inject_Z.
      cbn [Qnum Qden]. lia. }
    reflexivity. }
  reflexivity.
Qed.

Lemma utcfromtimestamp_ms_int (t : Z) :
  0 < t < ms_exact -> utcfromtimestamp_ms (JInt t) = Some (1000 * t).
Proof.
  intros Ht. unfold utcfromtimestamp_ms. cbn [number].
  rewrite round_half_even_int.
  unfold ms_exact, datetime_min, datetime_max in *.
  destruct (Z.leb_spec (-62135596800000000) (1000 * t)); [|lia].
  destruct (Z.leb_spec (1000 * t) 253402300799999999); [|lia].
  reflexivity.
Qed.

Lemma truthy_pos_int (t : Z) : 0 < t -> truthy (JInt t) = true.
Proof.
  intros Ht. cbn. destruct (Z.eqb_spec t 0); [lia | reflexivity].
Qed.

Section IngestionProperties.
Variable float_of_string : string -> option float.

Lemma on_message_trade (now : Z) (d : gmap string json) :
  is_trade d = true ->
  on_message float_of_string now (Some (JObj d))
  = _normalize_trade float_of_string now d.
Proof.
  intros Hd. cbn. now rewrite Hd.
Qed.

Lemma normalize_ts (now : Z) (d : gmap string json) (norm : Norm.t) (ts : Z) :
  _normalize_trade float_of_string now d = Some norm ->
  match py_or (get d "T") (get d "E") with
  | JNull => Some now
  | t_ms => utcfromtimestamp_ms t_ms
  end = Some ts ->
  Norm.ts norm = ts.
Proof.
  unfold _normalize_trade. intros Hn Hts.
  cbn zeta in Hn.
  set (o := match py_or (get d "T") (get d "E") with
            | JNull => Some now | _ => _ end) in *.
  assert (o = Some ts) as Ho.
  { subst o. rewrite <- Hts.
    destruct (py_or (get d "T") (get d "E")); reflexivity. }
  rewrite Ho in Hn. cbn in Hn.
  destruct (py_float _ (get_or d "p" _)); [|discriminate]. cbn in Hn.
  destruct (py_float _ (get_or d "q" _)); [|discriminate]. cbn in Hn.
  now inversion Hn.
Qed.

(** X17: a trade inside the [data] field of an envelope that is no trade
    itself is stored like the bare trade; and a trade's own fields decide: a
    [data] field it carries is never looked at. *)
Theorem trade_envelope (now : Z) (w d : gmap string json) (inner : json) :
  is_trade d = true ->
  (is_trade w = false -> w !! "data" = Some (JObj d) ->
   on_message float_of_string now (Some (JObj w))
   = on_message float_of_string now (Some (JObj d)))
  /\ on_message float_of_string now (Some (JObj (<["data" := inner]> d)))
     = on_message float_of_string now (Some (JObj d)).
Proof.
  intros Hd. split.
  - intros Hw Hdata. rewrite (on_message_trade _ _ Hd).
    cbn. rewrite Hw. unfold get. rewrite Hdata. cbn. now rewrite Hd.
  - assert (is_trade (<["data" := inner]> d) = true) as Hd'.
    { unfold is_trade in *. now rewrite lookup_insert_ne by done. }
    rewrite !on_message_trade by assumption.
    unfold _normalize_trade, get, get_or.
    now rewrite !lookup_insert_ne by done.
Qed.

(** X18: the trade time [T], in milliseconds, becomes the tick's timestamp
    [1000 * T] microseconds, whatever the event time [E] says; [E] is used
    when [T] is absent or falsy (0, null, ...). *)
Theorem trade_time_microseconds (now t : Z) (d : gmap string json)
    (norm : Norm.t) :
  is_trade d = true ->
  on_message float_of_string now (Some (JObj d)) = Some norm ->
  0 < t < ms_exact ->
  d !! "T" = Some (JInt t)
  \/ (truthy (get d "T") = false /\ d !! "E" = Some (JInt t)) ->
  Norm.ts norm = 1000 * t.
Proof.
  intros Hd Hn Ht Hk. rewrite (on_message_trade _ _ Hd) in Hn.
  apply (normalize_ts _ _ _ _ Hn).
  assert (py_or (get d "T") (get d "E") = JInt t) as ->.
  { unfold py_or. destruct Hk as [HT | [HT HE]].
    - assert (get d "T" = JInt t) as -> by (unfold get; now rewrite HT).
      now rewrite truthy_pos_int by lia.
    - rewrite HT. unfold get. now rewrite HE. }
  now apply utcfromtimestamp_ms_int.
Qed.

(** X19: a trade with no usable time is stamped with the clock: when [T] is
    absent or falsy and [E] is absent or null, the timestamp is [now]. An
    event time [E] of 0 is not "absent": with [T] absent or falsy it gives the
    epoch. *)
Theorem trade_without_time (now : Z) (d : gmap string json) (norm : Norm.t) :
  is_trade d = true ->
  on_message float_of_string now (Some (JObj d)) = Some norm ->
  truthy (get d "T") = false ->
  (get d "E" = JNull -> Norm.ts norm = now)
  /\ (d !! "E" = Some (JInt 0) -> Norm.ts norm = 0).
Proof.
  intros Hd Hn HT. rewrite (on_message_trade _ _ Hd) in Hn.
  split; intros HE; apply (normalize_ts _ _ _ _ Hn); unfold py_or; rewrite HT.
  - now rewrite HE.
  - unfold get. rewrite HE. reflexivity.
Qed.

(** X20: a trade without a price field is stored with price 0.0, one whose
    price is null is not stored at all; the same for the quantity. *)
Theorem missing_price_zero_null_price_dropped (now : Z) (d : gmap string json) :
  is_trade d = true ->
  (forall norm,
     on_message float_of_string now (Some (JObj d)) = Some norm ->
     (d !! "p" = None -> Norm.price norm = Fin 0%Q)
     /\ (d !! "q" = None -> Norm.size norm = Fin 0%Q))
  /\ (d !! "p" = Some JNull \/ d !! "q" = Some JNull ->
      on_message float_of_string now (Some (JObj d)) = None).
Proof.
  intros Hd. rewrite (on_message_trade _ _ Hd).
  unfold _normalize_trade. cbn zeta.
  destruct (match py_or (get d "T") (get d "E") with
            | JNull => Some now | _ => _ end) as [ts|]; cbn.
  2: { split; [intros norm Hn; discriminate | reflexivity]. }
  split.
  - intros norm Hn.
    destruct (py_float _ (get_or d "p" _)) as [price|] eqn:Hp; [|discriminate].
    cbn in Hn.
    destruct (py_float _ (get_or d "q" _)) as [size|] eqn:Hq; [|discriminate].
    cbn in Hn. inversion Hn; subst norm; cbn.
    split; intros Hk.
    + unfold get_or in Hp. rewrite Hk in Hp. cbn in Hp. congruence.
    + unfold get_or in Hq. rewrite Hk in Hq. cbn in Hq. congruence.
  - intros [Hk | Hk]; unfold get_or; rewrite Hk; cbn.
    + reflexivity.
    + now destruct (py_float _ _).
Qed.

(** X21: from the stream to the store: a trade for symbol [s] with trade time
    [T] and decimal strings for price and quantity makes [on_message] call
    [insert_tick] with [qty] the trade's size, and a query that selects the
    row then returns it after the rows it returned before. *)
Theorem trade_message_stored (now t : Z) (d : gmap string json) (s p q : string)
    (price size : float) (db : DB) (minutes_back now' : Z) :
  is_trade d = true ->
  d !! "s" = Some (JStr s) ->
  d !! "T" = Some (JInt t) -> 0 < t < ms_exact ->
  d !! "p" = Some (JStr p) -> float_of_string p = Some price ->
  d !! "q" = Some (JStr q) -> float_of_string q = Some size ->
  cutoff now' minutes_back <= 1000 * t ->
  on_message float_of_string now (Some (JObj d))
  = Some (Norm.mk (JStr s) (1000 * t) price size)
  /\ exists db',
       insert_tick db s (1000 * t) price size = Ok db'
       /\ get_ticks db' [s] minutes_back now'
          = get_ticks db [s] minutes_back now'
            ++ [TickRow.mk s (1000 * t) price size].
Proof.
  intros Hd Hs HT Ht Hp Hpv Hq Hqv Hcut. split.
  - rewrite (on_message_trade _ _ Hd).
    assert (get d "T" = JInt t) as HT' by (unfold get; now rewrite HT).
    assert (get d "s" = JStr s) as Hs' by (unfold get; now rewrite Hs).
    assert (get_or d "p" (JFloat (Fin 0%Q)) = JStr p) as Hp'
      by (unfold get_or; now rewrite Hp).
    assert (get_or d "q" (JFloat (Fin 0%Q)) = JStr q) as Hq'
      by (unfold get_or; now rewrite Hq).
    unfold _normalize_trade, py_or.
    rewrite HT', Hs', Hp', Hq'.
    rewrite truthy_pos_int by lia.
    rewrite utcfromtimestamp_ms_int by assumption.
    cbn. rewrite Hpv. cbn. rewrite Hqv. reflexivity.
  - eexists. split; [reflexivity|].
    rewrite !get_ticks_single. cbn [ticks].
    rewrite List.filter_app, map_app. f_equal.
    cbn. unfold selected. cbn.
    rewrite bool_decide_eq_true_2 by apply list_elem_of_here.
    destruct (Z.leb_spec (cutoff now' minutes_back) (1000 * t)); [|lia].
    reflexivity.
Qed.
End IngestionProperties.

Lemma trade_message_stored_witness :
  on_message float_of_string_example 7 (Some (JObj trade_example))
  = Some norm_example
  /\ exists db',
       insert_tick db_example "BTCUSDT" (1000 * 1700000000123)
                   (Fin (100001 # 2)) (Fin (1 # 4)) = Ok db'
       /\ get_ticks db' ["BTCUSDT"] 60 1700000001000000
          = get_ticks db_example ["BTCUSDT"] 60 1700000001000000
            ++ [TickRow.mk "BTCUSDT" (1000 * 1700000000123)
                           (Fin (100001 # 2)) (Fin (1 # 4))].
Proof.
  apply (trade_message_stored float_of_string_example 7 1700000000123
           trade_example "BTCUSDT" "50000.5" "0.25").
  - vm_compute. reflexivity.
  - vm_compute. reflexivity.
  - vm_compute. reflexivity.
  - unfold ms_exact. lia.
  - vm_compute. reflexivity.
  - vm_compute. reflexivity.
  - vm_compute. reflexivity.
  - vm_compute. reflexivity.
  - vm_compute. discriminate.
Defined.

Lemma missing_price_zero_null_price_dropped_witness :
  (forall norm,
     on_message float_of_string_example 7 (Some (JObj (delete "p" trade_example)))
     = Some norm ->
     (delete "p" trade_example !! "p" = None -> Norm.price norm = Fin 0%Q)
     /\ (delete "p" trade_example !! "q" = None -> Norm.size norm = Fin 0%Q))
  /\ (delete "p" trade_example !! "p" = Some JNull
      \/ delete "p" trade_example !! "q" = Some JNull ->
      on_message float_of_string_example 7 (Some (JObj (delete "p" trade_example)))
      = None).
Proof.
  apply missing_price_zero_null_price_dropped. vm_compute. reflexivity.
Defined.

Lemma trade_without_time_witness :
  (get (delete "E" (<["T" := JInt 0]> trade_example)) "E" = JNull ->
   Norm.ts (Norm.mk (JStr "BTCUSDT") 7 (Fin (100001 # 2)) (Fin (1 # 4))) = 7)
  /\ (delete "E" (<["T" := JInt 0]> trade_example) !! "E" = Some (JInt 0) ->
      Norm.ts (Norm.mk (JStr "BTCUSDT") 7 (Fin (100001 # 2)) (Fin (1 # 4))) = 0).
Proof.
  apply (trade_without_time float_of_string_example 7
           (delete "E" (<["T" := JInt 0]> trade_example))).
  - vm_compute. reflexivity.
  - vm_compute. reflexivity.
  - vm_compute. reflexivity.
Defined.

Lemma trade_time_microseconds_witness :
  Norm.ts norm_example = 1000 * 1700000000123.
Proof.
  apply (trade_time_microseconds float_of_string_example 7 1700000000123
           trade_example norm_example).
  - vm_compute. reflexivity.
  - vm_compute. reflexivity.
  - unfold ms_exact. lia.
  - left. vm_compute. reflexivity.
Defined.

Lemma trade_envelope_witness :
  (is_trade {[ "stream" := JStr "btcusdt@trade"; "data" := JObj trade_example ]} = false ->
   ({[ "stream" := JStr "btcusdt@trade"; "data" := JObj trade_example ]}
      : gmap string json) !! "data" = Some (JObj trade_example) ->
   on_message float_of_string_example 7
     (Some (JObj {[ "stream" := JStr "btcusdt@trade"; "data" := JObj trade_example ]}))
   = on_message float_of_string_example 7 (Some (JObj trade_example)))
  /\ on_message float_of_string_example 7
       (Some (JObj (<["data" := JNull]> trade_example)))
     = on_message float_of_string_example 7 (Some (JObj trade_example)).
Proof.
  apply trade_envelope. vm_compute. reflexivity.
Defined.

(** ** The ingestor's life cycle *)

Section LifecycleProperties.
Variable lower : string -> string.

Lemma run_keeps_instance (syms : list string) (calls : list call) (rt : Runtime) :
  (exists ing k,
     _ingestor_instance rt = Some ing
     /\ Ingestor.symbols ing = syms
     /\ init_db_calls rt = 1%nat
     /\ started rt = concat (replicate k syms)
     /\ (1 <= k)%nat) ->
  exists ing k,
    _ingestor_instance (run lower calls rt) = Some ing
    /\ Ingestor.symbols ing = syms
    /\ init_db_calls (run lower calls rt) = 1%nat
    /\ started (run lower calls rt) = concat (replicate k syms)
    /\ (1 <= k)%nat.
Proof.
  revert rt. induction calls as [|c calls IH]; intros rt H; [exact H|].
  cbn [run fold_left]. apply IH. clear IH.
  destruct H as (ing & k & Hi & Hs & Hn & Ht & Hk).
  destruct c as [symbols| |]; cbn [step].
  - unfold get_or_create_ingestor. rewrite Hi. cbn. now exists ing, k.
  - rewrite Hi. unfold start. destruct (Ingestor._running ing).
    + exists ing, k. cbn. rewrite app_nil_r. auto.
    + eexists _, (S k). cbn. repeat split; try assumption; try lia.
      rewrite Ht, Hs. clear.
      induction k as [|k IH]; cbn; [now rewrite app_nil_r|].
      now rewrite <- app_assoc, IH.
  - rewrite Hi. eexists _, k. cbn. auto.
Qed.

Lemma run_without_stop (calls : list call) (rt : Runtime) (ing : Ingestor.t) :
  Stop ∉ calls ->
  _ingestor_instance rt = Some ing -> Ingestor._running ing = true ->
  run lower calls rt = rt.
Proof.
  induction calls as [|c calls IH]; intros Hc Hi Hr; [reflexivity|].
  cbn [run fold_left].
  assert (step lower rt c = rt) as ->.
  { destruct c as [symbols| |]; cbn [step].
    - unfold get_or_create_ingestor. now rewrite Hi.
    - rewrite Hi. unfold start. rewrite Hr. cbn. rewrite app_nil_r.
      now destruct rt; cbn in *; subst.
    - exfalso. apply Hc. apply list_elem_of_here. }
  apply IH; [|assumption..].
  intros Hin. apply Hc. now apply list_elem_of_further.
Qed.

(** X22: the ingestor is a singleton. Whatever is called, one call after
    another, once [get_or_create_ingestor] has been called: the instance keeps
    the first call's symbols in lower case and the database is initialised
    once; the threads started are whole rounds of one thread per symbol, never
    fewer than one round; and as long as [stop] is not called there is exactly
    one round, so repeated calls (one per rerun of the dashboard) start
    nothing more. *)
Theorem ingestor_singleton (first : list string) (calls : list call) :
  exists ing k,
    _ingestor_instance (run lower (GetOrCreate first :: calls) at_import) = Some ing
    /\ Ingestor.symbols ing = map lower first
    /\ init_db_calls (run lower (GetOrCreate first :: calls) at_import) = 1%nat
    /\ started (run lower (GetOrCreate first :: calls) at_import)
       = concat (replicate k (map lower first))
    /\ (1 <= k)%nat
    /\ (Stop ∉ calls -> k = 1%nat /\ Ingestor._running ing = true).
Proof.
  set (syms := map lower first).
  set (rt1 := mkRuntime (Some (Ingestor.mk syms syms true)) syms 1).
  assert (run lower (GetOrCreate first :: calls) at_import = run lower calls rt1)
    as -> by reflexivity.
  destruct (decide (Stop ∈ calls)) as [Hin|Hnin].
  - destruct (run_keeps_instance syms calls rt1)
      as (ing & k & H1 & H2 & H3 & H4 & H5).
    { exists (Ingestor.mk syms syms true), 1%nat. cbn.
      rewrite app_nil_r. do 4 (split; [reflexivity|]). lia. }
    exists ing, k. do 5 (split; [assumption|]). intros Hnin. contradiction.
  - rewrite (run_without_stop calls rt1 _ Hnin eq_refl eq_refl).
    exists (Ingestor.mk syms syms true), 1%nat. cbn.
    rewrite app_nil_r. do 4 (split; [reflexivity|]).
    split; [lia|]. intros _. split; reflexivity.
Qed.
End LifecycleProperties.

(** ** The dashboard *)

Lemma filter_notna_all_nan (l : list float) :
  (forall i v, l !! i = Some v -> v = NaN) -> List.filter notna l = [].
Proof.
  induction l as [|x l IH]; intros H; [reflexivity|].
  cbn. rewrite (H 0%nat x eq_refl). cbn.
  apply IH. intros i v Hv. exact (H (S i) v Hv).
Qed.

(** X23: before the spread has [window // 2] entries the dashboard has no
    latest z-score (it shows N/A) and raises no alert, whatever the threshold. *)
Theorem no_alert_before_half_window (Qsqrt : Q -> Q) (px_x px_y : Series)
    (window : Z) (spread z : Series) (z_alert_thresh : float) :
  compute_spread_and_zscore Qsqrt px_x px_y window = Ok (spread, z) ->
  Z.of_nat (length spread) < window / 2 ->
  latest z = NaN /\ alert z_alert_thresh (latest z) = false.
Proof.
  intros H Hlen.
  destruct (zscore_nan_positions _ _ _ _ _ _ H) as [Hi Hv].
  assert (latest z = NaN) as ->; [|split; reflexivity].
  unfold latest. rewrite filter_notna_all_nan; [reflexivity|].
  intros i v Hz. apply (Hv i v Hz). right.
  apply lookup_lt_Some in Hz.
  assert (length (values z) = length spread) as E.
  { unfold values. rewrite length_map.
    transitivity (length (index z)); [unfold index; now rewrite length_map|].
    rewrite Hi. unfold index. now rewrite length_map. }
  lia.
Qed.

Lemma no_alert_before_half_window_witness :
  exists spread z,
    compute_spread_and_zscore Qsqrt_floor px_x_example px_y_example 40 = Ok (spread, z)
    /\ latest z = NaN /\ alert (Fin 2%Q) (latest z) = false.
Proof.
  eexists _, _. split; [vm_compute; reflexivity|].
  eapply (no_alert_before_half_window Qsqrt_floor px_x_example px_y_example 40).
  - vm_compute. reflexivity.
  - vm_compute. reflexivity.
Defined.
